(** * Idempotency coordinator of ms-reservations (RedisService)

    Shallow embedding of [src/ms-reservations/src/redis/redis.service.ts].

    The service talks to Redis through [await]ed ioredis calls.  Every call
    is one atomic command of the store, and a caller can be suspended at each
    [await].  A method is therefore modelled as a command tree ([prog]): a
    node is one call ([Op]) with the continuation that receives its reply.
    Four semantics are given to these trees:

    - [exec]: a run against a model of the Redis store ([world]);
    - [runs]: the runs against an arbitrary environment, where every reply is
      whatever the store answers at that moment (other processes may have
      written in between);
    - [run_schedule]: two callers interleaved command by command over one
      store, with the passing of time;
    - [run_open]: the same two callers among other calls of the service on
      the key ([confirmReservation], [rollbackLock]), started at any moment
      and interleaved command by command with them.

    [console.log] calls are omitted: they do not touch the store nor the
    result. *)

From stdpp Require Import base strings gmap list pretty.
From Stdlib Require Import ZArith Lia.

Local Open Scope string_scope.
Local Open Scope Z_scope.

(** ** JavaScript values used by the service *)

Module JS.

(** [if (v)], [!!v] on a [string | null]: [null] and the empty string are
    falsy. *)
Definition truthy (v : option string) : bool :=
  match v with
  | Some s => negb (String.eqb s "")
  | None => false
  end.

(** [v || undefined] on a [string | null]. *)
Definition or_undefined (v : option string) : option string :=
  if truthy v then v else None.

(** [n || d] on a [number | undefined]: [undefined] and [0] are falsy. *)
Definition number_or (n : option Z) (d : Z) : Z :=
  match n with
  | Some z => if (z =? 0)%Z then d else z
  | None => d
  end.

(** [s.substring(start)]. *)
Fixpoint substring (start : nat) (s : string) : string :=
  match start, s with
  | O, _ => s
  | S n, String _ s' => substring n s'
  | S _, EmptyString => EmptyString
  end.

(** [`${n}`] for an integer [n]. *)
Definition number_to_string (n : Z) : string := pretty n.

End JS.

(** ** The Redis store *)

(** A key holds a string and, when it was written with [PX] or [EX], the
    instant (in milliseconds) at which it expires. *)
Record entry := Entry { value : string; deadline : option Z }.

(** [db]: the keyspace; [clock]: the current time in milliseconds;
    [seq]: how many calls were answered so far (it indexes the
    environment's choices, see [env]). *)
Record world := World { db : gmap string entry; clock : Z; seq : nat }.

(** What the model does not decide: the digits drawn by [Math.random()] and
    whether a Redis call fails (connection lost), per call. *)
Record env := Env { random_of : nat → string; fault_of : nat → bool }.

Inductive error :=
| StoreUnavailable
| ReplyError (msg : string).

Definition expired (now : Z) (en : entry) : bool :=
  match deadline en with
  | Some d => (d <=? now)%Z
  | None => false
  end.

(** The value a key holds now; an expired key is absent. *)
Definition live (w : world) (k : string) : option string :=
  match db w !! k with
  | Some en => if expired (clock w) en then None else Some (value en)
  | None => None
  end.

Definition with_db (w : world) (d : gmap string entry) : world :=
  {| db := d; clock := clock w; seq := seq w |}.

(** GET *)
Definition store_get (w : world) (k : string) : option string := live w k.

(** DEL: the number of keys removed. *)
Definition store_del (w : world) (k : string) : Z * world :=
  (match live w k with Some _ => 1 | None => 0 end,
   with_db w (delete k (db w))).

(** SET k v PX ms NX: writes only when the key is absent; ["OK"] or nil. *)
Definition store_set_px_nx (w : world) (k v : string) (ms : Z)
  : (error + option string) * world :=
  if (ms <=? 0)%Z then (inl (ReplyError "ERR invalid expire time in 'set' command"), w)
  else match live w k with
       | Some _ => (inr None, w)
       | None =>
           (inr (Some "OK"),
            with_db w (<[k := Entry v (Some (clock w + ms))]> (db w)))
       end.

(** SETEX k seconds v: writes unconditionally. *)
Definition store_setex (w : world) (k : string) (seconds : Z) (v : string)
  : (error + string) * world :=
  if (seconds <=? 0)%Z
  then (inl (ReplyError "ERR invalid expire time in 'setex' command"), w)
  else (inr "OK",
        with_db w (<[k := Entry v (Some (clock w + seconds * 1000))]> (db w))).

(** EXISTS *)
Definition store_exists (w : world) (k : string) : Z :=
  match live w k with Some _ => 1 | None => 0 end.

(** ** Lua scripts run by EVAL

    Only the fragment used by the service: [KEYS[i]], [ARGV[i]], integer
    literals, [==], [redis.call("get", _)], [redis.call("del", _)],
    [if .. then .. else .. end] and [return]. *)

Inductive lua_expr :=
| LKeys (i : nat)
| LArgv (i : nat)
| LInt (n : Z)
| LEq (a b : lua_expr)
| LCallGet (k : lua_expr)
| LCallDel (k : lua_expr).

Inductive lua_stmt :=
| LReturn (e : lua_expr)
| LIf (c : lua_expr) (t f : lua_stmt).

Inductive lua_val :=
| LvNil
| LvBool (b : bool)
| LvNum (n : Z)
| LvStr (s : string).

Definition lua_val_eqb (a b : lua_val) : bool :=
  match a, b with
  | LvNil, LvNil => true
  | LvBool x, LvBool y => Bool.eqb x y
  | LvNum x, LvNum y => (x =? y)%Z
  | LvStr x, LvStr y => String.eqb x y
  | _, _ => false
  end.

(** Lua tables are indexed from 1; a missing index is [nil]. *)
Definition lua_index (l : list string) (i : nat) : lua_val :=
  match i with
  | O => LvNil
  | S j => match l !! j with Some s => LvStr s | None => LvNil end
  end.

(** [redis.call] takes strings and numbers as arguments. *)
Definition lua_key (v : lua_val) : option string :=
  match v with
  | LvStr s => Some s
  | LvNum n => Some (JS.number_to_string n)
  | _ => None
  end.

Definition lua_arg_error : error :=
  ReplyError "ERR Lua redis lib command arguments must be strings or integers".

Fixpoint lua_eval (KEYS ARGV : list string) (e : lua_expr) (w : world)
  : (error + lua_val) * world :=
  match e with
  | LKeys i => (inr (lua_index KEYS i), w)
  | LArgv i => (inr (lua_index ARGV i), w)
  | LInt n => (inr (LvNum n), w)
  | LEq a b =>
      match lua_eval KEYS ARGV a w with
      | (inl err, w1) => (inl err, w1)
      | (inr x, w1) =>
          match lua_eval KEYS ARGV b w1 with
          | (inl err, w2) => (inl err, w2)
          | (inr y, w2) => (inr (LvBool (lua_val_eqb x y)), w2)
          end
      end
  | LCallGet k =>
      match lua_eval KEYS ARGV k w with
      | (inl err, w1) => (inl err, w1)
      | (inr kv, w1) =>
          match lua_key kv with
          | None => (inl lua_arg_error, w1)
          | Some key =>
              (* a nil bulk reply becomes [false] in Lua *)
              (inr (match store_get w1 key with
                    | Some s => LvStr s
                    | None => LvBool false
                    end), w1)
          end
      end
  | LCallDel k =>
      match lua_eval KEYS ARGV k w with
      | (inl err, w1) => (inl err, w1)
      | (inr kv, w1) =>
          match lua_key kv with
          | None => (inl lua_arg_error, w1)
          | Some key => let '(n, w2) := store_del w1 key in (inr (LvNum n), w2)
          end
      end
  end.

(** In a condition only [nil] and [false] are false. *)
Definition lua_truthy (v : lua_val) : bool :=
  match v with
  | LvNil | LvBool false => false
  | _ => true
  end.

Fixpoint lua_run (KEYS ARGV : list string) (s : lua_stmt) (w : world)
  : (error + lua_val) * world :=
  match s with
  | LReturn e => lua_eval KEYS ARGV e w
  | LIf c t f =>
      match lua_eval KEYS ARGV c w with
      | (inl err, w1) => (inl err, w1)
      | (inr v, w1) =>
          if lua_truthy v then lua_run KEYS ARGV t w1 else lua_run KEYS ARGV f w1
      end
  end.

(** Replies as the client sees them. *)
Inductive reply :=
| RNil
| RInt (n : Z)
| RStr (s : string).

(** Conversion of the value a script returns into a reply. *)
Definition lua_to_reply (v : lua_val) : reply :=
  match v with
  | LvNil | LvBool false => RNil
  | LvBool true => RInt 1
  | LvNum n => RInt n
  | LvStr s => RStr s
  end.

(** EVAL: the whole script is one command of the store. *)
Definition store_eval (w : world) (script : lua_stmt) (KEYS ARGV : list string)
  : (error + reply) * world :=
  match lua_run KEYS ARGV script w with
  | (inl err, w') => (inl err, w')
  | (inr v, w') => (inr (lua_to_reply v), w')
  end.

(** ** Calls made by the service *)

Inductive cmd :=
| redis_get (key : string)
| redis_set_px_nx (key val : string) (ms : Z)
| redis_setex (key : string) (seconds : Z) (val : string)
| redis_del (key : string)
| redis_exists (key : string)
| redis_eval (script : lua_stmt) (KEYS ARGV : list string)
| date_now
| math_random_base36
| sleep (ms : Z).

(** What each call resolves to. *)
Definition reply_type (c : cmd) : Type :=
  match c with
  | redis_get _ => option string
  | redis_set_px_nx _ _ _ => option string
  | redis_setex _ _ _ => string
  | redis_del _ => Z
  | redis_exists _ => Z
  | redis_eval _ _ _ => reply
  | date_now => Z
  | math_random_base36 => string
  | sleep _ => unit
  end.

Definition is_redis (c : cmd) : bool :=
  match c with
  | date_now | math_random_base36 | sleep _ => false
  | _ => true
  end.

(** The calls that may change the keyspace. *)
Definition is_write (c : cmd) : bool :=
  match c with
  | redis_set_px_nx _ _ _ | redis_setex _ _ _ | redis_del _ | redis_eval _ _ _ => true
  | _ => false
  end.

Definition opt_reply (v : option string) : reply :=
  match v with Some s => RStr s | None => RNil end.

Definition to_reply (c : cmd) : reply_type c → reply :=
  match c with
  | redis_get _ => opt_reply
  | redis_set_px_nx _ _ _ => opt_reply
  | redis_setex _ _ _ => RStr
  | redis_del _ => RInt
  | redis_exists _ => RInt
  | redis_eval _ _ _ => fun r => r
  | date_now => RInt
  | math_random_base36 => RStr
  | sleep _ => fun _ => RNil
  end.

(** One call and what it resolved to (or the error it was rejected with). *)
Record event := Ev { ev_cmd : cmd; ev_reply : error + reply }.

Definition next_seq (w : world) : world :=
  {| db := db w; clock := clock w; seq := S (seq w) |}.

Definition advance (w : world) (ms : Z) : world :=
  {| db := db w; clock := clock w + Z.max 0 ms; seq := seq w |}.

(** The answer of the store model to one call.  A failed call leaves the
    keyspace as it was. *)
Definition handle (e : env) (w : world) (c : cmd)
  : (error + reply_type c) * world :=
  if is_redis c && fault_of e (seq w) then (inl StoreUnavailable, next_seq w)
  else
    match c return (error + reply_type c) * world with
    | redis_get k => (inr (store_get w k), next_seq w)
    | redis_set_px_nx k v ms =>
        let '(r, w') := store_set_px_nx w k v ms in (r, next_seq w')
    | redis_setex k s v =>
        let '(r, w') := store_setex w k s v in (r, next_seq w')
    | redis_del k => let '(n, w') := store_del w k in (inr n, next_seq w')
    | redis_exists k => (inr (store_exists w k), next_seq w)
    | redis_eval script KEYS ARGV =>
        let '(r, w') := store_eval w script KEYS ARGV in (r, next_seq w')
    | date_now => (inr (clock w), next_seq w)
    | math_random_base36 => (inr (random_of e (seq w)), next_seq w)
    | sleep ms => (inr tt, next_seq (advance w ms))
    end.

(** ** Command trees *)

Inductive prog (A : Type) : Type :=
| Ret (a : A)
| Op (c : cmd) (k : reply_type c → prog A).

Arguments Ret {A} a.
Arguments Op {A} c k.

Fixpoint bind {A B} (p : prog A) (f : A → prog B) : prog B :=
  match p with
  | Ret a => f a
  | Op c k => Op c (fun x => bind (k x) f)
  end.

(** [await c] *)
Definition call (c : cmd) : prog (reply_type c) := Op c Ret.

Notation "'let*' x ':=' p 'in' q" := (bind p (fun x => q))
  (at level 10, x name, p at level 100, q at level 200).
Notation "p ';;' q" := (bind p (fun _ => q))
  (at level 100, q at level 200, right associativity).

Record outcome (A : Type) := Outcome {
  result : error + A;      (* resolved value, or the rejection *)
  final : world;           (* the store afterwards *)
  trace : list event       (* the calls made, in order *)
}.

Arguments Outcome {A} _ _ _.
Arguments result {A} _.
Arguments final {A} _.
Arguments trace {A} _.

(** A run with nobody else touching the store; a rejected call rejects the
    whole method (there is no [try] in the service). *)
Fixpoint exec {A} (e : env) (w : world) (p : prog A) : outcome A :=
  match p with
  | Ret a => Outcome (inr a) w []
  | Op c k =>
      match handle e w c with
      | (inl err, w') => Outcome (inl err) w' [Ev c (inl err)]
      | (inr x, w') =>
          let o := exec e w' (k x) in
          Outcome (result o) (final o) (Ev c (inr (to_reply c x)) :: trace o)
      end
  end.

(** The runs against any environment: each call resolves to some reply of its
    type, and a call to Redis may instead be rejected. *)
Fixpoint runs {A} (p : prog A) (tr : list event) (r : error + A) : Prop :=
  match p with
  | Ret a => tr = [] ∧ r = inr a
  | Op c k =>
      (∃ err, is_redis c = true ∧ tr = [Ev c (inl err)] ∧ r = inl err) ∨
      (∃ x tr', tr = Ev c (inr (to_reply c x)) :: tr' ∧ runs (k x) tr' r)
  end.

(** ** Two callers over one store

    A caller is suspended at each call; [Sleeping] is a caller inside
    [setTimeout], resumed once the clock has reached [until].  A rejected call
    rejects the caller's method. *)

Inductive thread (A : Type) : Type :=
| Running (p : prog A)
| Sleeping (until : Z) (p : prog A)
| Rejected (err : error).

Arguments Running {A} p.
Arguments Sleeping {A} until p.
Arguments Rejected {A} err.

(** The value the caller's promise resolved to, once it has. *)
Definition returned {A} (t : thread A) : option A :=
  match t with
  | Running (Ret a) => Some a
  | _ => None
  end.

(** One move of a caller: its pending call is answered by the store. *)
Definition thread_step {A} (e : env) (w : world) (t : thread A)
  : world * thread A :=
  match t with
  | Running (Op (sleep ms) k) =>
      (next_seq w, Sleeping (clock w + Z.max 0 ms) (k tt))
  | Running (Op c k) =>
      match handle e w c with
      | (inl err, w') => (w', Rejected err)
      | (inr x, w') => (w', Running (k x))
      end
  | Sleeping until p =>
      if (until <=? clock w)%Z then (w, Running p) else (w, t)
  | _ => (w, t)
  end.

Record config (A : Type) := Config {
  store : world;
  caller1 : thread A;
  caller2 : thread A
}.

Arguments Config {A} _ _ _.
Arguments store {A} _.
Arguments caller1 {A} _.
Arguments caller2 {A} _.

Inductive action :=
| Move1           (* the first caller's pending call is served *)
| Move2           (* the second caller's pending call is served *)
| Tick (ms : nat) (* time passes *).

Definition act {A} (e : env) (c : config A) (a : action) : config A :=
  match a with
  | Move1 =>
      let '(w, t) := thread_step e (store c) (caller1 c) in
      Config w t (caller2 c)
  | Move2 =>
      let '(w, t) := thread_step e (store c) (caller2 c) in
      Config w (caller1 c) t
  | Tick ms =>
      Config (advance (store c) (Z.of_nat ms)) (caller1 c) (caller2 c)
  end.

Definition run_schedule {A} (e : env) (c : config A) (sched : list action)
  : config A :=
  foldl (act e) c sched.

(** ** RedisService *)

Record IdempotencyResult := {
  isDuplicate : bool;
  existingReservationId : option string;   (* [?:] optional *)
  lockAcquired : option bool               (* [?:] optional *)
}.

Record RedisService := {
  ttlSeconds : Z;
  lockTtlMs : Z
}.

(** The constructor; [cfg] is [config.get<number>("IDEMPOTENCY_TTL_SECONDS")]
    as its declared type has it: a number, or [undefined].  The cast is not
    checked: a value that reaches the constructor as the string of an
    environment variable is kept by [||] unless it is empty, and [ttlSeconds]
    is then the number that Redis reads in it, which may be zero.  What a
    service does with a [ttlSeconds] that is not positive is therefore stated
    over every [RedisService], not only over those built here. *)
Definition new_RedisService (cfg : option Z) : RedisService :=
  {| ttlSeconds := JS.number_or cfg 86400; lockTtlMs := 5000 |}.

(** The script of [releaseLock]. *)
Definition release_script : lua_stmt :=
  LIf (LEq (LCallGet (LKeys 1)) (LArgv 1))
      (LReturn (LCallDel (LKeys 1)))
      (LReturn (LInt 0)).

Definition reply_eqb (a b : reply) : bool :=
  match a, b with
  | RNil, RNil => true
  | RInt x, RInt y => (x =? y)%Z
  | RStr x, RStr y => String.eqb x y
  | _, _ => false
  end.

Definition releaseLock (lockKey lockValue : string) : prog bool :=
  let* result := call (redis_eval release_script [lockKey] [lockValue]) in
  Ret (reply_eqb result (RInt 1)).

(** The local constants of the methods:
    [const idempotencyKey = `reservation_key:${key}`],
    [const lockKey = `lock:${key}`] and
    [const lockValue = `${Date.now()}-${Math.random().toString(36).substring(7)}`]. *)
Definition idempotencyKey (key : string) : string := "reservation_key:" +:+ key.

Definition lockKey (key : string) : string := "lock:" +:+ key.

Definition newLockValue (now : Z) (random36 : string) : string :=
  JS.number_to_string now +:+ "-" +:+ JS.substring 7 random36.

Definition checkAndLock (this : RedisService) (key : string)
  : prog IdempotencyResult :=
  (* PASO 1 *)
  let* existingValue := call (redis_get (idempotencyKey key)) in
  if JS.truthy existingValue then
    Ret {| isDuplicate := true;
           existingReservationId := existingValue;
           lockAcquired := Some false |}
  else
    (* PASO 2 *)
    let* now := call date_now in
    let* random36 := call math_random_base36 in
    let lockValue := newLockValue now random36 in
    let* lockAcquired :=
      call (redis_set_px_nx (lockKey key) lockValue (lockTtlMs this)) in
    if negb (JS.truthy lockAcquired) then
      call (sleep 100);;
      let* checkAgain := call (redis_get (idempotencyKey key)) in
      Ret {| isDuplicate := JS.truthy checkAgain;
             existingReservationId := JS.or_undefined checkAgain;
             lockAcquired := Some false |}
    else
      (* PASO 3 *)
      let* doubleCheck := call (redis_get (idempotencyKey key)) in
      if JS.truthy doubleCheck then
        releaseLock (lockKey key) lockValue;;
        Ret {| isDuplicate := true;
               existingReservationId := doubleCheck;
               lockAcquired := Some false |}
      else
        Ret {| isDuplicate := false;
               existingReservationId := None;
               lockAcquired := Some true |}.

Definition confirmReservation (this : RedisService) (key reservationId : string)
  : prog unit :=
  call (redis_setex (idempotencyKey key) (ttlSeconds this) reservationId);;
  call (redis_del (lockKey key));;
  Ret tt.

Definition rollbackLock (key : string) : prog unit :=
  call (redis_del (lockKey key));;
  Ret tt.

Definition checkIdempotencyKey (key : string) : prog bool :=
  let* n := call (redis_exists (idempotencyKey key)) in
  Ret (n =? 1)%Z.

Definition setIdempotencyKey (this : RedisService) (key reservationId : string)
  : prog unit :=
  call (redis_setex (idempotencyKey key) (ttlSeconds this) reservationId);;
  Ret tt.

Definition getIdempotencyKey (key : string) : prog (option string) :=
  call (redis_get (idempotencyKey key)).

(** The three shapes of result, in the vocabulary of the contract. *)
Definition Duplicate (resultId : string) : IdempotencyResult :=
  {| isDuplicate := true;
     existingReservationId := Some resultId;
     lockAcquired := Some false |}.

Definition LockAcquired : IdempotencyResult :=
  {| isDuplicate := false;
     existingReservationId := None;
     lockAcquired := Some true |}.

Definition Contended : IdempotencyResult :=
  {| isDuplicate := false;
     existingReservationId := None;
     lockAcquired := Some false |}.

(** The strings a result hands to the caller. *)
Definition strings_of_result (r : IdempotencyResult) : list string :=
  match existingReservationId r with
  | Some s => [s]
  | None => []
  end.

(** The keys a call names. *)
Definition cmd_keys (c : cmd) : list string :=
  match c with
  | redis_get k | redis_set_px_nx k _ _ | redis_setex k _ _
  | redis_del k | redis_exists k => [k]
  | redis_eval _ KEYS _ => KEYS
  | date_now | math_random_base36 | sleep _ => []
  end.

(** The calls on completion records and the calls on lock records. *)
Definition on_completion (c : cmd) : bool :=
  match c with
  | redis_get _ | redis_setex _ _ _ | redis_exists _ => true
  | _ => false
  end.

Definition on_lock (c : cmd) : bool :=
  match c with
  | redis_set_px_nx _ _ _ | redis_del _ | redis_eval _ _ _ => true
  | _ => false
  end.

(** The replies to the reads of key [k], in order. *)
Definition reads_of (k : string) (tr : list event) : list (error + reply) :=
  omap (fun ev =>
          match ev_cmd ev with
          | redis_get k' => if String.eqb k k' then Some (ev_reply ev) else None
          | _ => None
          end) tr.

(** The environment never rejects a call. *)
Definition reliable (e : env) : Prop := ∀ n, fault_of e n = false.

#[global] Instance IdempotencyResult_eq_dec : EqDecision IdempotencyResult.
Proof. solve_decision. Defined.

(** ** Program points *)

(** A reply read back at the type the call resolves to. *)
Definition from_reply (c : cmd) (x : reply) : reply_type c :=
  match c return reply_type c with
  | redis_get _ | redis_set_px_nx _ _ _ =>
      match x with RStr s => Some s | _ => None end
  | redis_setex _ _ _ | math_random_base36 =>
      match x with RStr s => s | _ => "" end
  | redis_del _ | redis_exists _ | date_now =>
      match x with RInt n => n | _ => 0 end
  | redis_eval _ _ _ => x
  | sleep _ => tt
  end.

(** The rest of a method once its pending call resolved to [x]. *)
Definition resume {A} (p : prog A) (x : reply) : prog A :=
  match p with
  | Ret _ => p
  | Op c k => k (from_reply c x)
  end.

(** The program point reached after a history of replies. *)
Definition resumes {A} (p : prog A) (history : list reply) : prog A :=
  foldl resume p history.

(** Where a caller of [checkAndLock] stands. *)
Inductive phase :=
| AtStart                                   (* first GET pending *)
| AtNow                                     (* [Date.now()] pending *)
| AtRandom (now : Z)                        (* [Math.random()] pending *)
| AtSet (now : Z) (random36 : string)       (* SET NX pending *)
| AtBackoff                                 (* [sleep(100)] pending *)
| Asleep (until : Z)                        (* inside [sleep(100)] *)
| AtRecheck                                 (* GET after the sleep pending *)
| AtDoubleCheck (now : Z) (random36 : string)   (* lock taken, GET pending *)
| AtRelease (now : Z) (random36 : string) (doubleCheck : string)
                                            (* lock taken, EVAL pending *)
| Done (r : IdempotencyResult)
| Failed (err : error).

(** The replies that lead to a phase.  Once the SET has found the lock taken
    the token is no longer used, so every [now] and [random36] lead to the
    same program point. *)
Definition history (ph : phase) : list reply :=
  match ph with
  | AtStart => []
  | AtNow => [RNil]
  | AtRandom now => [RNil; RInt now]
  | AtSet now rnd => [RNil; RInt now; RStr rnd]
  | AtBackoff => [RNil; RInt 0; RStr ""; RNil]
  | Asleep _ | AtRecheck => [RNil; RInt 0; RStr ""; RNil; RNil]
  | AtDoubleCheck now rnd => [RNil; RInt now; RStr rnd; RStr "OK"]
  | AtRelease now rnd v => [RNil; RInt now; RStr rnd; RStr "OK"; RStr v]
  | Done _ | Failed _ => []
  end.

(** The caller at a phase: [checkAndLock] resumed after the replies of
    [history]. *)
Definition thread_at (this : RedisService) (key : string) (ph : phase)
  : thread IdempotencyResult :=
  match ph with
  | Done r => Running (Ret r)
  | Failed err => Rejected err
  | Asleep until => Sleeping until (resumes (checkAndLock this key) (history ph))
  | _ => Running (resumes (checkAndLock this key) (history ph))
  end.

(** The phases whose pending call goes to Redis and may be rejected. *)
Definition calls_redis (ph : phase) : bool :=
  match ph with
  | AtStart | AtSet _ _ | AtRecheck | AtDoubleCheck _ _ | AtRelease _ _ _ => true
  | _ => false
  end.

(** What holds of every phase a caller can be in: a value that
    [if (doubleCheck)] took as true is not the empty string, and a result is
    of one of the three shapes. *)
Definition wf_phase (ph : phase) : Prop :=
  match ph with
  | AtRelease _ _ v => v ≠ ""
  | Done r => r = LockAcquired ∨ r = Contended ∨ ∃ v, r = Duplicate v
  | _ => True
  end.

(** The caller took the lock and has not released it. *)
Definition owner (ph : phase) : bool :=
  match ph with
  | AtDoubleCheck _ _ | AtRelease _ _ _ => true
  | Done r => bool_decide (r = LockAcquired)
  | _ => false
  end.

(** The caller found the lock taken. *)
Definition waiter (ph : phase) : bool :=
  match ph with
  | AtBackoff | Asleep _ | AtRecheck => true
  | Done r => bool_decide (r = Contended)
  | _ => false
  end.

(** The caller has not reached the SET yet. *)
Definition early (ph : phase) : bool :=
  match ph with
  | AtStart | AtNow | AtRandom _ | AtSet _ _ => true
  | _ => false
  end.

(** The phases of a race in which no completion record shows up and no call
    fails. *)
Definition plain (ph : phase) : bool :=
  match ph with
  | AtRelease _ _ _ | Failed _ => false
  | Done r => bool_decide (r = LockAcquired) || bool_decide (r = Contended)
  | _ => true
  end.

(** The lock record of [key] is in the store and does not expire before
    [t]. *)
Definition lock_until (w : world) (key : string) (t : Z) : Prop :=
  ∃ en d, db w !! lockKey key = Some en ∧ deadline en = Some d ∧ t ≤ d.

(** Invariant of a race started at [t0]: the callers that took the lock are
    at most one, and the lock record stands while there is one. *)
Definition safe (key : string) (t0 : Z) (w : world) (ph1 ph2 : phase) : Prop :=
  wf_phase ph1 ∧ wf_phase ph2 ∧ t0 ≤ clock w ∧
  ¬ (owner ph1 = true ∧ owner ph2 = true) ∧
  (owner ph1 = true ∨ owner ph2 = true → lock_until w key (t0 + 5000)).

(** Invariant of a race on a fresh key with a reliable store: besides [safe],
    a caller that found the lock taken found it taken by the other one. *)
Definition fresh_race (key : string) (w : world) (ph1 ph2 : phase) : Prop :=
  live w (idempotencyKey key) = None ∧
  plain ph1 = true ∧ plain ph2 = true ∧
  (waiter ph1 = true → owner ph2 = true) ∧
  (waiter ph2 = true → owner ph1 = true) ∧
  (owner ph1 = false → owner ph2 = false → live w (lockKey key) = None).


(** The moves of a caller of [checkAndLock key], with their effect on the
    store. *)
Inductive phase_trans (key : string) (e : env) (w : world)
  : phase → world → phase → Prop :=
| trans_fault ph :
    calls_redis ph = true → fault_of e (seq w) = true →
    phase_trans key e w ph (next_seq w) (Failed StoreUnavailable)
| trans_start_found v :
    fault_of e (seq w) = false →
    live w (idempotencyKey key) = Some v → v ≠ "" →
    phase_trans key e w AtStart (next_seq w) (Done (Duplicate v))
| trans_start_none :
    fault_of e (seq w) = false →
    JS.truthy (live w (idempotencyKey key)) = false →
    phase_trans key e w AtStart (next_seq w) AtNow
| trans_now :
    phase_trans key e w AtNow (next_seq w) (AtRandom (clock w))
| trans_random now :
    phase_trans key e w (AtRandom now) (next_seq w)
      (AtSet now (random_of e (seq w)))
| trans_set_ok now rnd :
    fault_of e (seq w) = false →
    live w (lockKey key) = None →
    phase_trans key e w (AtSet now rnd)
      (next_seq (with_db w (<[lockKey key :=
                                Entry (newLockValue now rnd)
                                      (Some (clock w + 5000))]> (db w))))
      (AtDoubleCheck now rnd)
| trans_set_busy now rnd s :
    fault_of e (seq w) = false →
    live w (lockKey key) = Some s →
    phase_trans key e w (AtSet now rnd) (next_seq w) AtBackoff
| trans_backoff :
    phase_trans key e w AtBackoff (next_seq w) (Asleep (clock w + 100))
| trans_wake until :
    until ≤ clock w →
    phase_trans key e w (Asleep until) w AtRecheck
| trans_wait until :
    clock w < until →
    phase_trans key e w (Asleep until) w (Asleep until)
| trans_recheck_found v :
    fault_of e (seq w) = false →
    live w (idempotencyKey key) = Some v → v ≠ "" →
    phase_trans key e w AtRecheck (next_seq w) (Done (Duplicate v))
| trans_recheck_none :
    fault_of e (seq w) = false →
    JS.truthy (live w (idempotencyKey key)) = false →
    phase_trans key e w AtRecheck (next_seq w) (Done Contended)
| trans_double_found now rnd v :
    fault_of e (seq w) = false →
    live w (idempotencyKey key) = Some v → v ≠ "" →
    phase_trans key e w (AtDoubleCheck now rnd) (next_seq w)
      (AtRelease now rnd v)
| trans_double_none now rnd :
    fault_of e (seq w) = false →
    JS.truthy (live w (idempotencyKey key)) = false →
    phase_trans key e w (AtDoubleCheck now rnd) (next_seq w) (Done LockAcquired)
| trans_release_hit now rnd v :
    fault_of e (seq w) = false →
    live w (lockKey key) = Some (newLockValue now rnd) →
    phase_trans key e w (AtRelease now rnd v)
      (next_seq (with_db w (delete (lockKey key) (db w))))
      (Done (Duplicate v))
| trans_release_miss now rnd v :
    fault_of e (seq w) = false →
    live w (lockKey key) ≠ Some (newLockValue now rnd) →
    phase_trans key e w (AtRelease now rnd v) (next_seq w) (Done (Duplicate v))
| trans_done r :
    phase_trans key e w (Done r) w (Done r)
| trans_failed err :
    phase_trans key e w (Failed err) w (Failed err).


(** A read of a completion record, as an event. *)
Definition reply_of (x : error + option string) : error + reply :=
  match x with
  | inl err => inl err
  | inr v => inr (opt_reply v)
  end.


(** The keys of the calls of the coordinator for [key]: completion records
    under [idempotencyKey key], lock records under [lockKey key]. *)
Definition namespaced (key : string) (c : cmd) : Prop :=
  (on_completion c = true → cmd_keys c = [idempotencyKey key]) ∧
  (on_lock c = true → cmd_keys c = [lockKey key]) ∧
  (on_completion c = false → on_lock c = false → cmd_keys c = []).

(** ** Sample environments and stores *)

Definition sample_env : env :=
  {| random_of := fun _ => "0.4fzyo82mvyr"; fault_of := fun _ => false |}.

(** Every Redis call is rejected. *)
Definition broken_env : env :=
  {| random_of := fun _ => "0.4fzyo82mvyr"; fault_of := fun _ => true |}.

Definition sample_service : RedisService := new_RedisService None.

Definition empty_store : world :=
  {| db := ∅; clock := 1700000000000; seq := 0 |}.

(** The store after [confirmReservation("order-42", "res-100")]. *)
Definition completed_store : world :=
  final (exec sample_env empty_store
           (confirmReservation sample_service "order-42" "res-100")).

(** [lock:order-43] is held by a process whose token is ["tokenB"]. *)
Definition locked_store : world :=
  {| db := {[ "lock:order-43" := Entry "tokenB" (Some 1700000005000) ]};
     clock := 1700000000000; seq := 0 |}.

(** The store after [confirmReservation("order-44", "")]: the completion
    record of [order-44] holds the empty string. *)
Definition blank_store : world :=
  final (exec sample_env empty_store
           (confirmReservation sample_service "order-44" "")).

(** The same, with [lock:order-44] held by a process whose token is
    ["tokenB"]. *)
Definition blank_locked_store : world :=
  with_db blank_store
    (<["lock:order-44" := Entry "tokenB" (Some 1700000005000)]> (db blank_store)).


(** Two callers of [checkAndLock key] about to start. *)
Definition race_start (this : RedisService) (key : string) (w : world)
  : config IdempotencyResult :=
  Config w (Running (checkAndLock this key)) (Running (checkAndLock this key)).


(** The callers alternate; the second one finds the lock taken, sleeps
    100 ms and reads again. *)
Definition alternating : list action :=
  [Move1; Move2; Move1; Move2; Move1; Move2; Move1; Move2; Move1; Move2;
   Tick 100; Move2; Move2].


(** A run in which the completion record appears between the first read and
    the double check. *)
Definition late_completion_trace : list event :=
  [Ev (redis_get (idempotencyKey "order-42")) (inr RNil);
   Ev date_now (inr (RInt 1700000000000));
   Ev math_random_base36 (inr (RStr "0.4fzyo82mvyr"));
   Ev (redis_set_px_nx (lockKey "order-42") "1700000000000-82mvyr" 5000)
      (inr (RStr "OK"));
   Ev (redis_get (idempotencyKey "order-42")) (inr (RStr "res-100"));
   Ev (redis_eval release_script [lockKey "order-42"] ["1700000000000-82mvyr"])
      (inr (RInt 1))].

(** ** Two callers among other calls on the key

    Besides the two callers of [checkAndLock], other calls of the service on
    the same key are in flight: [confirmReservation] and [rollbackLock], each
    one started at any moment and suspended at each of its calls, which are
    served one at a time in any order with those of the two callers. *)

Inductive operation :=
| ConfirmReservation (reservationId : string)
| RollbackLock.

Definition program_of (this : RedisService) (key : string) (op : operation)
  : prog unit :=
  match op with
  | ConfirmReservation reservationId => confirmReservation this key reservationId
  | RollbackLock => rollbackLock key
  end.

Record open_config := OpenConfig {
  callers : config IdempotencyResult;
  others : list (thread unit)
}.

Inductive open_action :=
| Callers (a : action)    (* a move of one of the two callers, or time passing *)
| Invoke (op : operation) (* somebody calls the service on the key *)
| MoveOther (i : nat)     (* the pending call of the i-th such call is served *).

Definition open_act (this : RedisService) (key : string) (e : env)
    (c : open_config) (a : open_action) : open_config :=
  match a with
  | Callers a => OpenConfig (act e (callers c) a) (others c)
  | Invoke op =>
      OpenConfig (callers c) (others c ++ [Running (program_of this key op)])
  | MoveOther i =>
      match others c !! i with
      | Some t =>
          let '(w, t') := thread_step e (store (callers c)) t in
          OpenConfig (Config w (caller1 (callers c)) (caller2 (callers c)))
                     (<[i := t']> (others c))
      | None => c
      end
  end.

Definition run_open (this : RedisService) (key : string) (e : env)
    (c : open_config) (sched : list open_action) : open_config :=
  foldl (open_act this key e) c sched.

(** Two callers of [checkAndLock key] about to start, no other call in
    flight. *)
Definition open_start (this : RedisService) (key : string) (w : world)
  : open_config :=
  OpenConfig (race_start this key w) [].













(** The reservation is confirmed before the second caller starts, with an
    empty result identifier. *)
Definition confirmed_blank : list open_action :=
  (Callers <$> [Move1; Move1; Move1; Move1; Move1])
  ++ [Invoke (ConfirmReservation ""); MoveOther 0; MoveOther 0]
  ++ (Callers <$> [Move2; Move2; Move2; Move2; Move2]).

(** ** What a method may write *)

(** The call writes, if at all, only keys satisfying [P].  An EVAL is only
    known not to stray for the script of [releaseLock]. *)
Definition cmd_writes_within (P : string → Prop) (c : cmd) : Prop :=
  match c with
  | redis_set_px_nx k _ _ | redis_setex k _ _ | redis_del k => P k
  | redis_eval script KEYS _ => script = release_script ∧ Forall P KEYS
  | _ => True
  end.

(** Every call the method can come to make writes only keys satisfying [P]. *)
Fixpoint writes_within {A} (P : string → Prop) (p : prog A) : Prop :=
  match p with
  | Ret _ => True
  | Op c k => cmd_writes_within P c ∧ ∀ x, writes_within P (k x)
  end.

(** The method never comes to make a call that may write. *)
Fixpoint read_only {A} (p : prog A) : Prop :=
  match p with
  | Ret _ => True
  | Op c k => is_write c = false ∧ ∀ x, read_only (k x)
  end.

(** The number of events of a trace whose call satisfies [f]. *)
Definition count_calls (f : cmd → bool) (tr : list event) : nat :=
  length (filter (fun ev => f (ev_cmd ev) = true) tr).

Definition is_sleep (c : cmd) : bool :=
  match c with sleep _ => true | _ => false end.

Definition is_get (c : cmd) : bool :=
  match c with redis_get _ => true | _ => false end.

Definition is_set_nx (c : cmd) : bool :=
  match c with redis_set_px_nx _ _ _ => true | _ => false end.

Definition is_eval (c : cmd) : bool :=
  match c with redis_eval _ _ _ => true | _ => false end.

(** The calls [checkAndLock] never makes. *)
Definition is_setex_del_exists (c : cmd) : bool :=
  match c with
  | redis_setex _ _ _ | redis_del _ | redis_exists _ => true
  | _ => false
  end.

(** An environment that rejects exactly the [n]-th call (when it is a call to
    Redis). *)
Definition fault_at (n : nat) : env :=
  {| random_of := fun _ => "0.4fzyo82mvyr"; fault_of := fun i => Nat.eqb i n |}.

(** The records of [key] are the same in two stores. *)
Definition same_records (key : string) (w w' : world) : Prop :=
  db w' !! idempotencyKey key = db w !! idempotencyKey key ∧
  db w' !! lockKey key = db w !! lockKey key.

(** The keys of the records of [key]. *)
Definition record_key (key : string) (k : string) : Prop :=
  k = idempotencyKey key ∨ k = lockKey key.

(** No character of the string is a dash. *)
Fixpoint dashless (s : string) : Prop :=
  match s with
  | EmptyString => True
  | String c s' => String c "" ≠ "-" ∧ dashless s'
  end.

(** A suspended caller will write only keys satisfying [P]. *)
Definition thread_writes_within {A} (P : string → Prop) (t : thread A) : Prop :=
  match t with
  | Running p | Sleeping _ p => writes_within P p
  | Rejected _ => True
  end.

(** ** ReservationsController.createReservation

    [src/ms-reservations/src/reservations/reservations.controller.ts].  The
    handler awaits [reservationsService.create(data)] and acknowledges the
    RabbitMQ message with [channel.ack(originalMsg)], in a [try] block whose
    [catch] acknowledges too and rethrows.  Both calls may throw, and what
    they do is not in the repository's files: a handler is a tree of calls
    with, at each call, the continuation for its value and the one for what it
    throws.  The logger calls are omitted. *)

Module Controller.

Section Handler.

(** [CreateReservationDto], what [create] resolves to, the RabbitMQ message
    and what can be thrown. *)
Context {Dto Reservation Msg Exn : Type}.

Inductive call :=
| Create (data : Dto)      (* [reservationsService.create(data)] *)
| Ack (msg : Msg).         (* [channel.ack(originalMsg)] *)

Definition answer (c : call) : Type :=
  match c with
  | Create _ => Reservation
  | Ack _ => unit
  end.

Inductive task (R : Type) : Type :=
| Return (r : R)
| Throw (x : Exn)
| Do (c : call) (k : answer c → task R) (h : Exn → task R).

Arguments Return {R} r.
Arguments Throw {R} x.
Arguments Do {R} c k h.

(** [c] alone: its value is returned, what it throws is thrown. *)
Definition perform (c : call) : task (answer c) := Do c Return Throw.

Fixpoint then_ {A B} (p : task A) (f : A → task B) : task B :=
  match p with
  | Return a => f a
  | Throw x => Throw x
  | Do c k h => Do c (fun a => then_ (k a) f) (fun x => then_ (h x) f)
  end.

(** [try { p } catch (error) { handler(error) }] *)
Fixpoint try_catch {A} (p : task A) (handler : Exn → task A) : task A :=
  match p with
  | Return a => Return a
  | Throw x => handler x
  | Do c k h =>
      Do c (fun a => try_catch (k a) handler) (fun x => try_catch (h x) handler)
  end.

Definition createReservation (data : Dto) (originalMsg : Msg)
  : task Reservation :=
  try_catch
    (then_ (perform (Create data)) (fun result =>
     then_ (perform (Ack originalMsg)) (fun _ =>
     Return result)))
    (fun error =>
     then_ (perform (Ack originalMsg)) (fun _ =>
     Throw error)).

(** What the collaborators do: [create] resolves or throws, and so does the
    [n]-th call of [ack]. *)
Record services := {
  create_of : Dto → Exn + Reservation;
  ack_of : nat → option Exn
}.

(** The calls made, in order, and how the handler ends. *)
Fixpoint run {R} (w : services) (acks : nat) (p : task R)
  : list call * (Exn + R) :=
  match p with
  | Return r => ([], inr r)
  | Throw x => ([], inl x)
  | Do c k h =>
      let '(log, out) :=
        match c return (answer c → task R) → list call * (Exn + R) with
        | Create data => fun k =>
            match create_of w data with
            | inr r => run w acks (k r)
            | inl x => run w acks (h x)
            end
        | Ack _ => fun k =>
            match ack_of w acks with
            | None => run w (S acks) (k tt)
            | Some x => run w (S acks) (h x)
            end
        end k
      in (c :: log, out)
  end.

End Handler.

Arguments Return {Dto Reservation Msg Exn R} r.
Arguments Throw {Dto Reservation Msg Exn R} x.
Arguments Do {Dto Reservation Msg Exn R} c k h.

End Controller.

(** ** JwtStrategy

    [src/gateway/src/auth/strategies/jwt.strategy.ts]. *)

Module JwtPayload.

(** [roles] may be missing from a token: [payload.roles || []]. *)
Record t := { sub : string; email : string; roles : option (list string) }.

End JwtPayload.

Module ValidatedUser.

Record t := { userId : string; email : string; roles : list string }.

End ValidatedUser.

Module JwtStrategy.

(** The options handed to [super]; [jwtFromRequest] is always
    [ExtractJwt.fromAuthHeaderAsBearerToken()]. *)
Record options := { ignoreExpiration : bool; secretOrKey : string }.

(** The constructor: the options of the strategy, or the message of the
    [Error] thrown.  [secret] is [configService.get("JWT_SECRET")]. *)
Definition new (secret : option string) : string + options :=
  if negb (JS.truthy secret) then inl "JWT_SECRET is missing"
  else inr {| ignoreExpiration := false;
              secretOrKey := default "" secret |}.

Definition validate (payload : JwtPayload.t) : ValidatedUser.t :=
  {| ValidatedUser.userId := JwtPayload.sub payload;
     ValidatedUser.email := JwtPayload.email payload;
     ValidatedUser.roles := default [] (JwtPayload.roles payload) |}.

End JwtStrategy.

(** [create] resolves to a reservation id; [ack] never throws. *)
Definition sample_services : @Controller.services string string string :=
  {| Controller.create_of := fun data => inr ("res-" +:+ data);
     Controller.ack_of := fun _ => None |}.

(** The channel is closed: every [ack] throws. *)
Definition closed_channel : @Controller.services string string string :=
  {| Controller.create_of := fun data => inr ("res-" +:+ data);
     Controller.ack_of := fun _ => Some "channel closed" |}.

(** * Properties *)

(** ** Generalities *)

Lemma truthy_Some v : v ≠ "" → JS.truthy (Some v) = true.
Proof.
  intros Hv. unfold JS.truthy.
  destruct (String.eqb_spec v ""); [contradiction | reflexivity].
Qed.

Lemma truthy_inv o : JS.truthy o = true → ∃ v, o = Some v ∧ v ≠ "".
Proof.
  destruct o as [v|]; simpl; [|discriminate].
  destruct (String.eqb_spec v ""); [discriminate|]. eauto.
Qed.

Lemma or_undefined_truthy o : JS.truthy o = true → JS.or_undefined o = o.
Proof. unfold JS.or_undefined. by intros ->. Qed.

Lemma or_undefined_falsy o : JS.truthy o = false → JS.or_undefined o = None.
Proof. unfold JS.or_undefined. by intros ->. Qed.

(** A run against the store model is one of the runs against any
    environment. *)
Lemma exec_runs {A} e (p : prog A) :
  ∀ w, runs p (trace (exec e w p)) (result (exec e w p)).
Proof.
  induction p as [a | c k IH]; intros w; simpl.
  - done.
  - destruct (handle e w c) as [[err | x] w'] eqn:Hh; simpl.
    + left. exists err. split_and!; try done.
      unfold handle in Hh. destruct (is_redis c) eqn:Hc; [done|].
      destruct c; simpl in *; simplify_eq.
    + right. exists x, (trace (exec e w' (k x))). split; [done | apply IH].
Qed.

Lemma live_next_seq w k : live (next_seq w) k = live w k.
Proof. reflexivity. Qed.

Lemma live_insert_eq w k v d :
  (clock w < d)%Z → live (with_db w (<[k := Entry v (Some d)]> (db w))) k = Some v.
Proof.
  intros Hd. unfold live, with_db; simpl. rewrite lookup_insert_eq.
  unfold expired; simpl. destruct (Z.leb_spec d (clock w)); [lia | done].
Qed.

Lemma live_insert_ne w k k' en :
  k ≠ k' → live (with_db w (<[k := en]> (db w))) k' = live w k'.
Proof. intros Hk. unfold live, with_db; simpl. by rewrite lookup_insert_ne. Qed.

Lemma live_delete_eq w k : live (with_db w (delete k (db w))) k = None.
Proof. unfold live, with_db; simpl. by rewrite lookup_delete_eq. Qed.

Lemma live_delete_ne w k k' :
  k ≠ k' → live (with_db w (delete k (db w))) k' = live w k'.
Proof. intros Hk. unfold live, with_db; simpl. by rewrite lookup_delete_ne. Qed.

Lemma keys_distinct key : lockKey key ≠ idempotencyKey key.
Proof. unfold lockKey, idempotencyKey. simpl. discriminate. Qed.

(** *** The store model, call by call *)

Lemma exec_Op {A} e w c (k : reply_type c → prog A) :
  exec e w (Op c k) =
  match handle e w c with
  | (inl err, w') => Outcome (inl err) w' [Ev c (inl err)]
  | (inr x, w') =>
      let o := exec e w' (k x) in
      Outcome (result o) (final o) (Ev c (inr (to_reply c x)) :: trace o)
  end.
Proof. reflexivity. Qed.

Lemma handle_fault e w c :
  is_redis c = true → fault_of e (seq w) = true →
  handle e w c = (inl StoreUnavailable, next_seq w).
Proof. intros Hc Hf. unfold handle. by rewrite Hc, Hf. Qed.

Lemma handle_get e w k :
  fault_of e (seq w) = false →
  handle e w (redis_get k) = (inr (live w k), next_seq w).
Proof. intros Hf. unfold handle. cbn [is_redis andb]. by rewrite Hf. Qed.

Lemma handle_date_now e w : handle e w date_now = (inr (clock w), next_seq w).
Proof. reflexivity. Qed.

Lemma handle_random e w :
  handle e w math_random_base36 = (inr (random_of e (seq w)), next_seq w).
Proof. reflexivity. Qed.

Lemma handle_sleep e w ms :
  handle e w (sleep ms) = (inr tt, next_seq (advance w ms)).
Proof. reflexivity. Qed.

Lemma handle_set_absent e w k v ms :
  fault_of e (seq w) = false → (0 < ms)%Z → live w k = None →
  handle e w (redis_set_px_nx k v ms) =
  (inr (Some "OK"),
   next_seq (with_db w (<[k := Entry v (Some (clock w + ms))]> (db w)))).
Proof.
  intros Hf Hms Hl. unfold handle. cbn [is_redis andb]. rewrite Hf.
  unfold store_set_px_nx. destruct (Z.leb_spec ms 0); [lia|]. by rewrite Hl.
Qed.

Lemma handle_set_present e w k v ms s :
  fault_of e (seq w) = false → (0 < ms)%Z → live w k = Some s →
  handle e w (redis_set_px_nx k v ms) = (inr None, next_seq w).
Proof.
  intros Hf Hms Hl. unfold handle. cbn [is_redis andb]. rewrite Hf.
  unfold store_set_px_nx. destruct (Z.leb_spec ms 0); [lia|]. by rewrite Hl.
Qed.

Lemma handle_setex e w k s v :
  fault_of e (seq w) = false → (0 < s)%Z →
  handle e w (redis_setex k s v) =
  (inr "OK",
   next_seq (with_db w (<[k := Entry v (Some (clock w + s * 1000))]> (db w)))).
Proof.
  intros Hf Hs. unfold handle. cbn [is_redis andb]. rewrite Hf.
  unfold store_setex. by destruct (Z.leb_spec s 0); [lia|].
Qed.

Lemma handle_del e w k :
  fault_of e (seq w) = false →
  handle e w (redis_del k) =
  (inr (match live w k with Some _ => 1 | None => 0 end)%Z,
   next_seq (with_db w (delete k (db w)))).
Proof. intros Hf. unfold handle. cbn [is_redis andb]. by rewrite Hf. Qed.

(** The script of [releaseLock]: delete when the stored value is the
    argument, otherwise touch nothing. *)
Lemma release_script_hit w k v :
  live w k = Some v →
  store_eval w release_script [k] [v] =
  (inr (RInt 1), with_db w (delete k (db w))).
Proof.
  intros Hl. unfold store_eval, release_script.
  cbn [lua_run lua_eval lua_index lua_key lookup list_lookup].
  unfold store_get, store_del. rewrite Hl.
  cbn [lua_val_eqb lua_truthy]. rewrite String.eqb_refl.
  by cbn [lua_truthy lua_to_reply].
Qed.

Lemma release_script_miss w k v :
  live w k ≠ Some v →
  store_eval w release_script [k] [v] = (inr (RInt 0), w).
Proof.
  intros Hl. unfold store_eval, release_script.
  cbn [lua_run lua_eval lua_index lua_key lookup list_lookup].
  unfold store_get.
  destruct (live w k) as [s|] eqn:Hs; cbn [lua_val_eqb lua_truthy]; [|done].
  destruct (String.eqb_spec s v); [congruence | done].
Qed.

Lemma handle_release_hit e w k v :
  fault_of e (seq w) = false → live w k = Some v →
  handle e w (redis_eval release_script [k] [v]) =
  (inr (RInt 1), next_seq (with_db w (delete k (db w)))).
Proof.
  intros Hf Hl. unfold handle. cbn [is_redis andb]. rewrite Hf.
  by rewrite release_script_hit.
Qed.

Lemma handle_release_miss e w k v :
  fault_of e (seq w) = false → live w k ≠ Some v →
  handle e w (redis_eval release_script [k] [v]) = (inr (RInt 0), next_seq w).
Proof.
  intros Hf Hl. unfold handle. cbn [is_redis andb]. rewrite Hf.
  by rewrite release_script_miss.
Qed.

(** *** Tactics *)

Ltac exec_redex :=
  cbv beta iota zeta; cbn [result final trace to_reply opt_reply].

(* the pending call is a Redis call: it fails or is served *)
Ltac exec_call :=
  match goal with
  | |- context [exec ?e ?w (Op ?c _)] =>
      rewrite (exec_Op e w);
      destruct (fault_of e (seq w)) eqn:?;
      [ rewrite handle_fault by done; exec_redex; intros; discriminate
      | match c with
        | redis_get _ => rewrite handle_get by done
        | redis_set_px_nx ?k _ _ =>
            let s := fresh "s" in
            destruct (live w k) as [s|] eqn:?;
            [ rewrite (handle_set_present e w _ _ _ s) by (done || lia)
            | rewrite handle_set_absent by (done || lia) ]
        | redis_eval release_script [?k] [?v] =>
            destruct (decide (live w k = Some v));
            [ rewrite handle_release_hit by done
            | rewrite handle_release_miss by done ]
        end; exec_redex ]
  end.

Ltac runs_inv H :=
  unfold checkAndLock, confirmReservation, rollbackLock, releaseLock in H;
  cbn [runs bind call] in H;
  repeat
    (match goal with
     | H : _ ∨ _ |- _ => destruct H
     | H : ∃ _, _ |- _ => destruct H
     | H : _ ∧ _ |- _ => destruct H
     | H : is_redis _ = true |- _ =>
         cbn [is_redis] in H; first [discriminate H | clear H]
     | H : runs (if ?b then _ else _) _ _ |- _ =>
         destruct b eqn:?; cbn [runs bind call] in H
     end); subst.

Ltac split_trace :=
  repeat match goal with
    | H : (?pre ++ _ :: _)%list = _ |- _ => destruct pre; simplify_eq/=
    | H : _ :: _ = (?pre ++ _ :: _)%list |- _ => symmetry in H
    end.

Ltac reply_inv :=
  repeat match goal with
    | H : opt_reply ?x = RNil |- _ => destruct x; simplify_eq/=
    | H : RNil = opt_reply ?x |- _ => destruct x; simplify_eq/=
    | H : opt_reply ?x = RStr _ |- _ => destruct x; simplify_eq/=
    | H : RStr _ = opt_reply ?x |- _ => destruct x; simplify_eq/=
    end.

Ltac step_to w' ph' :=
  exists w', ph'; split;
  [try reflexivity
  | split; [first [done | simpl; eauto 6] | econstructor; eauto]].


(** ** One caller against the store *)

(** C8.  [releaseLock] is one call to the store (one EVAL, served as a single
    command): it deletes the lock record and resolves to [true] exactly when
    the value stored under the lock key is the supplied token; when the stored
    value differs (or the key is absent) nothing is removed, the keyspace is
    left as it was and [releaseLock] resolves to [false]. *)
Theorem releaseLock_compare_and_delete e w lockKey lockValue :
  fault_of e (seq w) = false →
  let o := exec e w (releaseLock lockKey lockValue) in
  (∃ n, trace o = [Ev (redis_eval release_script [lockKey] [lockValue]) (inr n)]) ∧
  (live w lockKey = Some lockValue →
     result o = inr true ∧ live (final o) lockKey = None ∧
     db (final o) = delete lockKey (db w)) ∧
  (live w lockKey ≠ Some lockValue →
     result o = inr false ∧ db (final o) = db w).
Proof.
  intros Hf o. subst o. unfold releaseLock. cbn [bind call]. rewrite exec_Op.
  destruct (decide (live w lockKey = Some lockValue)) as [Hl | Hl].
  - rewrite handle_release_hit by done. exec_redex. cbn [exec].
    split_and!; [eauto | | done]. intros _. exec_redex.
    split_and!; [done | apply live_delete_eq | done].
  - rewrite handle_release_miss by done. exec_redex. cbn [exec].
    split_and!; [eauto | done | done].
Qed.

(** C2, as amended.  [rollbackLock(key)] takes no token.  It makes one call,
    a plain DEL of [lock:<key>], which removes the lock record whatever value
    it holds; it writes no completion record, and it resolves normally also
    when there was no lock record. *)
Theorem rollbackLock_unconditional e w key :
  fault_of e (seq w) = false →
  let o := exec e w (rollbackLock key) in
  result o = inr tt ∧
  (∃ n, trace o = [Ev (redis_del (lockKey key)) (inr (RInt n))]) ∧
  db (final o) = delete (lockKey key) (db w) ∧
  live (final o) (lockKey key) = None ∧
  db (final o) !! idempotencyKey key = db w !! idempotencyKey key.
Proof.
  intros Hf o. subst o. unfold rollbackLock. cbn [bind call].
  rewrite exec_Op, handle_del by done. exec_redex. cbn [exec]. exec_redex.
  split_and!; [done | eauto | done | apply live_delete_eq |].
  cbn. apply lookup_delete_ne, keys_distinct.
Qed.

(** C4.  [confirmReservation] writes the completion record with the
    configured TTL ([ttlSeconds], in seconds from now) and then deletes the
    lock record, whatever value it holds.  When the write of the completion
    record is rejected, no DEL is issued, the keyspace (the lock record with
    its expiry included) is left as it was, and the rejection reaches the
    caller. *)
Theorem confirmReservation_spec cfg e w key reservationId :
  let this := new_RedisService cfg in
  let setex := redis_setex (idempotencyKey key) (ttlSeconds this) reservationId in
  let o := exec e w (confirmReservation this key reservationId) in
  (∀ err, (handle e w setex).1 = inl err →
     result o = inl err ∧ trace o = [Ev setex (inl err)] ∧ db (final o) = db w) ∧
  (∀ ok, (handle e w setex).1 = inr ok → fault_of e (S (seq w)) = false →
     result o = inr tt ∧
     (∃ n, trace o = [Ev setex (inr (RStr "OK"));
                      Ev (redis_del (lockKey key)) (inr (RInt n))]) ∧
     db (final o) =
       delete (lockKey key)
         (<[idempotencyKey key := Entry reservationId
                                (Some (clock w + ttlSeconds this * 1000))]> (db w))).
Proof.
  intros this setex o. subst o.
  unfold confirmReservation. cbn [bind call]. fold setex. rewrite exec_Op.
  destruct (handle e w setex) as [[err|x] w'] eqn:Hh.
  - split; [|intros ? [=]]. intros ? [= <-]. exec_redex. split_and!; try done.
    unfold handle, setex in Hh. cbn [is_redis andb] in Hh.
    destruct (fault_of e (seq w)); [by simplify_eq|].
    unfold store_setex in Hh. destruct (Z.leb _ _); by simplify_eq.
  - split; [intros ? [=]|]. intros ? _ Hf2.
    unfold handle, setex in Hh. cbn [is_redis andb] in Hh.
    destruct (fault_of e (seq w)); [by simplify_eq|].
    unfold store_setex in Hh. destruct (Z.leb _ _); simplify_eq.
    exec_redex. rewrite exec_Op, handle_del by done. exec_redex. cbn [exec].
    exec_redex. split_and!; [done | eauto | done].
Qed.

(** X23.  For every key whose completion record holds a non-empty result
    identifier, [checkAndLock] makes a single call, the first GET, and
    resolves to [Duplicate] with the stored identifier: no lock is attempted
    and the keyspace is not written. *)
Theorem checkAndLock_fast_path cfg e w key v :
  fault_of e (seq w) = false →
  live w (idempotencyKey key) = Some v → v ≠ "" →
  let o := exec e w (checkAndLock (new_RedisService cfg) key) in
  result o = inr (Duplicate v) ∧
  trace o = [Ev (redis_get (idempotencyKey key)) (inr (RStr v))] ∧
  db (final o) = db w.
Proof.
  intros Hf Hl Hv o. subst o. unfold checkAndLock. cbn [bind call].
  rewrite exec_Op, handle_get by done. exec_redex.
  rewrite Hl, (truthy_Some v Hv). cbn [exec]. exec_redex. done.
Qed.

(** C3, as amended.  For every key with no completion record and no lock
    record, when no call is rejected, [checkAndLock] stores the lock token
    under [lock:<key>] with an expiry of 5000 ms and resolves to
    [{isDuplicate: false, lockAcquired: true}]: the result carries no string,
    so the token stays in the store and is not handed to the caller. *)
Theorem checkAndLock_fresh_key cfg e w key :
  reliable e →
  live w (idempotencyKey key) = None →
  live w (lockKey key) = None →
  let token := newLockValue (clock w) (random_of e (S (S (seq w)))) in
  let o := exec e w (checkAndLock (new_RedisService cfg) key) in
  result o = inr LockAcquired ∧
  strings_of_result LockAcquired = [] ∧
  db (final o) = <[lockKey key := Entry token (Some (clock w + 5000))]> (db w) ∧
  live (final o) (lockKey key) = Some token.
Proof.
  intros Hf Hc Hl token o. subst o. unfold checkAndLock. cbn [bind call].
  rewrite exec_Op, handle_get by done. exec_redex. rewrite Hc. cbn [JS.truthy].
  rewrite exec_Op, handle_date_now. exec_redex.
  rewrite exec_Op, handle_random. exec_redex.
  rewrite exec_Op. cbn [new_RedisService lockTtlMs].
  rewrite handle_set_absent; [| done | lia | done]. exec_redex.
  change (negb (JS.truthy (Some "OK"))) with false. cbv iota.
  rewrite exec_Op, handle_get by done. exec_redex.
  rewrite !live_next_seq, live_insert_ne, !live_next_seq by apply keys_distinct.
  rewrite Hc. cbn [JS.truthy exec]. exec_redex.
  cbn [clock next_seq seq db with_db]. fold token.
  split_and!; try done.
  rewrite live_next_seq.
  change (live (with_db w (<[lockKey key := Entry token (Some (clock w + 5000))]> (db w))) (lockKey key) = Some token).
  apply live_insert_eq. lia.
Qed.

(** ** One caller against any environment *)

(** X21.  In every run of [checkAndLock] in which the SET NX is answered nil
    (the lock is held by someone else), what follows is exactly one
    [sleep(100)] and one GET of the completion record, nothing more; the
    result is [Duplicate] with the value read when that value is a non-empty
    string, [Contended] when the read finds nothing or the empty string, and
    the rejection when the read is rejected. *)
Theorem checkAndLock_contention cfg key tr r pre tok rest :
  runs (checkAndLock (new_RedisService cfg) key) tr r →
  tr = (pre ++ Ev (redis_set_px_nx (lockKey key) tok 5000) (inr RNil) :: rest)%list →
  ∃ again : error + option string,
    rest = [Ev (sleep 100) (inr RNil);
            Ev (redis_get (idempotencyKey key)) (reply_of again)] ∧
    r = match again with
        | inl err => inl err
        | inr (Some v) => if String.eqb v "" then inr Contended else inr (Duplicate v)
        | inr None => inr Contended
        end.
Proof.
  intros H Htr. runs_inv H; split_trace; reply_inv.
  - match goal with |- context [Ev (redis_get _) (inl ?err)] => exists (inl err) end.
    done.
  - match goal with
    | |- context [Ev (redis_get _) (inr (opt_reply ?x))] => exists (inr x); destruct x as [v|]
    end; (split; [done|]); [|done].
    unfold JS.or_undefined. simpl. by destruct (String.eqb v "").
Qed.

(** X22.  In every run of [checkAndLock] in which the SET NX is answered OK
    and the double-check GET then reads a non-empty result identifier, the
    one call that follows is the compare-and-delete script on the lock key
    with the token of that very SET, and the result is [Duplicate] with the
    identifier read (not [LockAcquired]); served by the store while the lock
    still holds that token, the script deletes it. *)
Theorem checkAndLock_double_check cfg key tr r pre tok v rest :
  runs (checkAndLock (new_RedisService cfg) key) tr r →
  tr = (pre ++ Ev (redis_set_px_nx (lockKey key) tok 5000) (inr (RStr "OK"))
            :: Ev (redis_get (idempotencyKey key)) (inr (RStr v)) :: rest)%list →
  v ≠ "" →
  (∃ released : error + reply,
     rest = [Ev (redis_eval release_script [lockKey key] [tok]) released] ∧
     r = match released with
         | inl err => inl err
         | inr _ => inr (Duplicate v)
         end) ∧
  (∀ e w, fault_of e (seq w) = false → live w (lockKey key) = Some tok →
     let o := exec e w (releaseLock (lockKey key) tok) in
     result o = inr true ∧ live (final o) (lockKey key) = None).
Proof.
  intros H Htr Hv. split.
  - runs_inv H; split_trace; reply_inv.
    all: try (rewrite truthy_Some in * by done; discriminate).
    all: try by (match goal with
                 | H : context [String.eqb ?s ""] |- _ =>
                     destruct (String.eqb_spec s ""); simplify_eq/=
                 end).
    + eexists (inl _). done.
    + eexists (inr _). done.
  - intros e w Hf Hl o. subst o. unfold releaseLock. cbn [bind call].
    rewrite exec_Op, handle_release_hit by done. cbn. split; [done|].
    apply live_delete_eq.
Qed.

(** C9, as amended.  For every idempotency key [k], in every run of
    [checkAndLock], [confirmReservation] and [rollbackLock], the calls on
    completion records name the key [reservation_key:<k>] and the calls on
    lock records name the key [lock:<k>]; no other key is named. *)
Theorem coordinator_key_namespaces cfg key reservationId tr :
  (∃ r, runs (checkAndLock (new_RedisService cfg) key) tr r) ∨
  (∃ r, runs (confirmReservation (new_RedisService cfg) key reservationId) tr r) ∨
  (∃ r, runs (rollbackLock key) tr r) →
  Forall (fun ev => namespaced key (ev_cmd ev)) tr ∧
  idempotencyKey key = "reservation_key:" +:+ key ∧
  lockKey key = "lock:" +:+ key.
Proof.
  intros H. split; [|done].
  destruct H as [[r H] | [[r H] | [r H]]]; runs_inv H;
    repeat (constructor; [unfold namespaced; cbn; split_and!; intros; done|]);
    constructor.
Qed.

(** C10.  Every result of [checkAndLock], in every run: [isDuplicate] and
    [lockAcquired] are not both true; when [isDuplicate] is true,
    [existingReservationId] is the value the store answered to the last read
    of the completion record (and, in a run against the store model, the value
    the completion record holds when [checkAndLock] returns); when
    [lockAcquired] is true, [existingReservationId] is absent. *)
Theorem checkAndLock_result_invariant cfg key :
  (∀ tr r,
     runs (checkAndLock (new_RedisService cfg) key) tr (inr r) →
     ¬ (isDuplicate r = true ∧ lockAcquired r = Some true) ∧
     (isDuplicate r = true →
        ∃ v, existingReservationId r = Some v ∧
             last (reads_of (idempotencyKey key) tr) = Some (inr (RStr v))) ∧
     (lockAcquired r = Some true → existingReservationId r = None)) ∧
  (∀ e w r,
     let o := exec e w (checkAndLock (new_RedisService cfg) key) in
     result o = inr r → isDuplicate r = true →
     existingReservationId r = live (final o) (idempotencyKey key)).
Proof.
  split.
  - intros tr r H. runs_inv H; simplify_eq/=.
    all: split_and!; try (intros [? ?]; discriminate); try discriminate; try done.
    all: intros Ht;
      repeat match goal with
        | H : JS.truthy ?x = true |- _ =>
            apply truthy_inv in H; destruct H as (? & -> & ?)
        end.
    all: eexists; split; [try reflexivity|].
    all: unfold reads_of; cbn [omap list_omap ev_cmd ev_reply]; rewrite ?String.eqb_refl.
    all: try done.
    apply or_undefined_truthy. by apply truthy_Some.
  - intros e w r o. subst o. unfold checkAndLock. cbn [bind call].
    exec_call.
    destruct (JS.truthy (live w (idempotencyKey key))) eqn:Hv.
    { cbn [exec result final]. intros [= <-] _. done. }
    do 2 (rewrite exec_Op; cbn [handle is_redis andb]; exec_redex).
    exec_call.
    + (* the lock is taken *)
      change (negb (JS.truthy None)) with true. cbv iota.
      rewrite exec_Op, handle_sleep. exec_redex. exec_call.
      cbn [exec result final]. intros [= <-]. cbn [isDuplicate existingReservationId].
      intros Hd. rewrite live_next_seq. by apply or_undefined_truthy.
    + (* the lock was free *)
      change (negb (JS.truthy (Some "OK"))) with false. cbv iota. exec_call.
      match goal with |- context [JS.truthy ?x] => destruct (JS.truthy x) eqn:Hdc end.
      * cbn [releaseLock bind call]. exec_call; cbn [exec result final];
          intros [= <-] _; cbn [existingReservationId];
          rewrite !live_next_seq; [|done].
        by rewrite live_delete_ne, live_next_seq by apply keys_distinct.
      * cbn [exec result]. intros [= <-]. discriminate.
Qed.

(** ** Two callers *)

Lemma thread_step_at cfg key e w ph :
  wf_phase ph →
  ∃ w' ph',
    thread_step e w (thread_at (new_RedisService cfg) key ph)
    = (w', thread_at (new_RedisService cfg) key ph') ∧
    wf_phase ph' ∧ phase_trans key e w ph w' ph'.
Proof.
  intros Hwf.
  destruct ph as [| | now | now rnd | | until | | now rnd | now rnd v | r | err];
    cbn [thread_at history resumes foldl resume from_reply checkAndLock bind
         call thread_step new_RedisService lockTtlMs JS.truthy negb
         String.eqb Ascii.eqb Bool.eqb].
  - (* AtStart *)
    destruct (fault_of e (seq w)) eqn:Hf.
    + rewrite handle_fault by done. step_to (next_seq w) (Failed StoreUnavailable).
    + rewrite handle_get by done.
      destruct (live w (idempotencyKey key)) as [v|] eqn:Hl.
      * destruct (String.eqb_spec v "") as [->|Hv].
        -- step_to (next_seq w) AtNow. by rewrite Hl.
        -- rewrite (truthy_Some v Hv). step_to (next_seq w) (Done (Duplicate v)).
      * step_to (next_seq w) AtNow. by rewrite Hl.
  - step_to (next_seq w) (AtRandom (clock w)).
  - step_to (next_seq w) (AtSet now (random_of e (seq w))).
  - (* AtSet *)
    destruct (fault_of e (seq w)) eqn:Hf.
    + rewrite handle_fault by done. step_to (next_seq w) (Failed StoreUnavailable).
    + destruct (live w (lockKey key)) as [s|] eqn:Hl.
      * rewrite (handle_set_present _ _ _ _ _ s) by (done || lia).
        step_to (next_seq w) AtBackoff.
      * rewrite handle_set_absent by (done || lia).
        step_to (next_seq (with_db w (<[lockKey key :=
                                Entry (newLockValue now rnd)
                                      (Some (clock w + 5000))]> (db w))))
                (AtDoubleCheck now rnd).
  - step_to (next_seq w) (Asleep (clock w + 100)).
  - destruct (Z.leb_spec until (clock w)).
    + step_to w AtRecheck.
    + step_to w (Asleep until).
  - (* AtRecheck *)
    destruct (fault_of e (seq w)) eqn:Hf.
    + rewrite handle_fault by done. step_to (next_seq w) (Failed StoreUnavailable).
    + rewrite handle_get by done.
      destruct (live w (idempotencyKey key)) as [v|] eqn:Hl.
      * destruct (String.eqb_spec v "") as [->|Hv].
        -- step_to (next_seq w) (Done Contended). by rewrite Hl.
        -- unfold JS.or_undefined. rewrite (truthy_Some v Hv).
           step_to (next_seq w) (Done (Duplicate v)).
      * step_to (next_seq w) (Done Contended). by rewrite Hl.
  - (* AtDoubleCheck *)
    destruct (fault_of e (seq w)) eqn:Hf.
    + rewrite handle_fault by done. step_to (next_seq w) (Failed StoreUnavailable).
    + rewrite handle_get by done.
      destruct (live w (idempotencyKey key)) as [v|] eqn:Hl.
      * destruct (String.eqb_spec v "") as [->|Hv].
        -- step_to (next_seq w) (Done LockAcquired). by rewrite Hl.
        -- step_to (next_seq w) (AtRelease now rnd v).
      * step_to (next_seq w) (Done LockAcquired). by rewrite Hl.
  - (* AtRelease *)
    simpl in Hwf. destruct (String.eqb_spec v "") as [|_]; [done|].
    cbn [negb releaseLock bind call thread_step].
    destruct (fault_of e (seq w)) eqn:Hf.
    + rewrite handle_fault by done. step_to (next_seq w) (Failed StoreUnavailable).
    + destruct (decide (live w (lockKey key) = Some (newLockValue now rnd))) as [Hl|Hl].
      * rewrite handle_release_hit by done.
        step_to (next_seq (with_db w (delete (lockKey key) (db w))))
                (Done (Duplicate v)).
      * rewrite handle_release_miss by done.
        step_to (next_seq w) (Done (Duplicate v)).
  - step_to w (Done r).
  - step_to w (Failed err).
Qed.

Lemma phase_trans_clock key e w ph w' ph' :
  phase_trans key e w ph w' ph' → clock w' = clock w.
Proof. by destruct 1. Qed.

Lemma lock_until_live w key t :
  lock_until w key t → clock w < t → ∃ s, live w (lockKey key) = Some s.
Proof.
  intros (en & d & Hen & Hd & Ht) Hc. unfold live. rewrite Hen.
  unfold expired. rewrite Hd. destruct (Z.leb_spec d (clock w)); [lia | eauto].
Qed.

Lemma lock_until_same_db w w' key t :
  db w' = db w → lock_until w key t → lock_until w' key t.
Proof. unfold lock_until. by intros ->. Qed.

Lemma returned_at this key ph r :
  wf_phase ph → returned (thread_at this key ph) = Some r → ph = Done r.
Proof.
  intros Hwf.
  destruct ph; cbn [thread_at history resumes foldl resume from_reply
                    checkAndLock bind call returned JS.truthy negb
                    String.eqb Ascii.eqb Bool.eqb]; try discriminate.
  - simpl in Hwf. destruct (String.eqb_spec doubleCheck ""); [done|].
    cbn. discriminate.
  - congruence.
Qed.

(** One move of a caller keeps [safe]. *)
Lemma safe_move key e t0 w ph other w' ph' :
  phase_trans key e w ph w' ph' →
  clock w < t0 + 5000 →
  wf_phase ph' →
  safe key t0 w ph other →
  safe key t0 w' ph' other.
Proof.
  intros Ht Hc Hwf' (Hwf & Hwfo & Ht0 & Hex & Hlock).
  pose proof (phase_trans_clock _ _ _ _ _ _ Ht) as Hclk.
  unfold safe. rewrite Hclk. split_and!; try done.
  - destruct Ht; simpl in *; try tauto; try (intros [? ?]; done).
    + (* SET NX succeeded: the other caller holds nothing *)
      intros [_ Ho]. destruct (lock_until_live w key (t0 + 5000)) as [s Hs]; [tauto | lia |].
      congruence.
  - destruct Ht; simpl in *; intros Hown;
      try (eapply lock_until_same_db; [|apply Hlock; tauto]; done);
      try (destruct Hown as [Hown|Hown]; [done|];
           eapply lock_until_same_db; [|apply Hlock; tauto]; done).
    + exists (Entry (newLockValue now rnd) (Some (clock w + 5000))), (clock w + 5000).
      cbn [db next_seq with_db deadline]. rewrite lookup_insert_eq.
      split_and!; [done | done | lia].
    + destruct Hown as [Hown|Hown]; [done|]. exfalso. apply Hex. done.
Qed.

(** Time passing keeps [safe]. *)
Lemma safe_tick key t0 w ph1 ph2 ms :
  safe key t0 w ph1 ph2 → safe key t0 (advance w (Z.of_nat ms)) ph1 ph2.
Proof.
  intros (Hwf1 & Hwf2 & Ht0 & Hex & Hlock). unfold safe.
  split_and!; try done. cbn [clock advance]. lia.
Qed.

Lemma safe_sym key t0 w ph1 ph2 : safe key t0 w ph1 ph2 → safe key t0 w ph2 ph1.
Proof. unfold safe. tauto. Qed.

Lemma run_schedule_snoc {A} e (c : config A) sched a :
  run_schedule e c (sched ++ [a]) = act e (run_schedule e c sched) a.
Proof. unfold run_schedule. by rewrite foldl_app. Qed.

Lemma lua_eval_clock KEYS ARGV x w : clock (lua_eval KEYS ARGV x w).2 = clock w.
Proof.
  revert w. induction x as [| | | a IHa b IHb | k IHk | k IHk]; intros w;
    cbn [lua_eval]; try done.
  - specialize (IHa w). destruct (lua_eval KEYS ARGV a w) as [[err|v] w1]; [done|].
    specialize (IHb w1). destruct (lua_eval KEYS ARGV b w1) as [[err|v'] w2];
      simpl in *; congruence.
  - specialize (IHk w). destruct (lua_eval KEYS ARGV k w) as [[err|v] w1]; [done|].
    by destruct (lua_key v).
  - specialize (IHk w). destruct (lua_eval KEYS ARGV k w) as [[err|v] w1]; [done|].
    by destruct (lua_key v).
Qed.

Lemma lua_run_clock KEYS ARGV s w : clock (lua_run KEYS ARGV s w).2 = clock w.
Proof.
  revert w. induction s as [x | c t IHt f IHf]; intros w; cbn [lua_run].
  - apply lua_eval_clock.
  - pose proof (lua_eval_clock KEYS ARGV c w) as Hc.
    destruct (lua_eval KEYS ARGV c w) as [[err|v] w1]; [done|].
    simpl in Hc. destruct (lua_truthy v); [rewrite IHt | rewrite IHf]; done.
Qed.

(** A move of a caller takes no time: only [Tick] moves the clock. *)
Lemma thread_step_clock {A} e w (t : thread A) :
  clock (thread_step e w t).1 = clock w.
Proof.
  destruct t as [[a | c k] | until p | err]; cbn [thread_step]; try done.
  - assert (Hh : (∃ ms, c = sleep ms) ∨ clock (handle e w c).2 = clock w).
    { destruct c; eauto; right; unfold handle; cbn [is_redis andb];
        try (destruct (fault_of e (seq w)); [done|]); cbn [fst snd]; try done.
      - unfold store_set_px_nx. destruct (Z.leb _ _); [done|].
        by destruct (live w key).
      - unfold store_setex. by destruct (Z.leb _ _).
      - unfold store_eval. pose proof (lua_run_clock KEYS ARGV script w) as Hc.
        by destruct (lua_run KEYS ARGV script w) as [[err|v] w1]. }
    destruct Hh as [[ms ->] | Hh]; [done|].
    destruct c; try done;
      by destruct (handle e w _) as [[err|x] w1].
  - by destruct (Z.leb _ _).
Qed.

Lemma act_clock {A} e (c : config A) a :
  clock (store c) ≤ clock (store (act e c a)).
Proof.
  destruct a as [| | ms]; cbn [act].
  - pose proof (thread_step_clock e (store c) (caller1 c)) as H.
    destruct (thread_step e (store c) (caller1 c)). simpl in *. lia.
  - pose proof (thread_step_clock e (store c) (caller2 c)) as H.
    destruct (thread_step e (store c) (caller2 c)). simpl in *. lia.
  - cbn. lia.
Qed.

Lemma live_None_advance w k ms : live w k = None → live (advance w ms) k = None.
Proof.
  unfold live. cbn [db clock advance]. destruct (db w !! k) as [en|]; [|done].
  unfold expired. destruct (deadline en) as [d|]; [|done].
  destruct (Z.leb_spec d (clock w)); [|done]. intros _.
  destruct (Z.leb_spec d (clock w + Z.max 0 ms)); [done | lia].
Qed.

(** One move of a caller keeps [fresh_race]. *)
Lemma fresh_move key e t0 w ph other w' ph' :
  phase_trans key e w ph w' ph' →
  reliable e →
  clock w < t0 + 5000 →
  safe key t0 w ph other →
  fresh_race key w ph other →
  fresh_race key w' ph' other.
Proof.
  intros Ht He Hc (Hwf & Hwfo & Ht0 & Hex & Hlock) (Hik & Hp & Hpo & Hw & Hwo & Hfree).
  assert (Hlive : ∀ k, db w' = db w → live w' k = live w k).
  { intros k Hdb. unfold live. rewrite Hdb.
    by rewrite (phase_trans_clock _ _ _ _ _ _ Ht). }
  destruct Ht; unfold fresh_race; simpl in *;
    try (rewrite He in *; discriminate);
    try congruence;
    try (rewrite Hik in *; discriminate);
    try (split_and!; by (done || (rewrite Hlive by done; auto))).
  - (* SET NX succeeded *)
    split_and!; try done.
    rewrite live_next_seq, live_insert_ne by apply keys_distinct. done.
  - (* SET NX found the lock taken: by the other caller *)
    assert (Ho : owner other = true).
    { destruct (owner other) eqn:Ho; [done|].
      rewrite Hfree in * by done. discriminate. }
    split_and!; done.
Qed.

Lemma fresh_tick key w ph1 ph2 ms :
  fresh_race key w ph1 ph2 → fresh_race key (advance w (Z.of_nat ms)) ph1 ph2.
Proof.
  intros (Hik & Hp & Hpo & Hw & Hwo & Hfree). unfold fresh_race.
  split_and!; try done.
  - by apply live_None_advance.
  - intros H1 H2. apply live_None_advance. auto.
Qed.

Lemma fresh_sym key w ph1 ph2 : fresh_race key w ph1 ph2 → fresh_race key w ph2 ph1.
Proof. unfold fresh_race. intuition. Qed.

(** The invariants along every schedule of two callers of [checkAndLock key]
    that ends before the lock TTL has elapsed. *)
Lemma race_invariant cfg key e w sched :
  let this := new_RedisService cfg in
  let c := run_schedule e (race_start this key w) sched in
  clock (store c) < clock w + 5000 →
  ∃ ph1 ph2,
    caller1 c = thread_at this key ph1 ∧
    caller2 c = thread_at this key ph2 ∧
    safe key (clock w) (store c) ph1 ph2 ∧
    (reliable e → live w (idempotencyKey key) = None →
     live w (lockKey key) = None → fresh_race key (store c) ph1 ph2).
Proof.
  intros this. induction sched as [|a sched IH] using rev_ind; intros c Hc.
  - exists AtStart, AtStart. subst c. cbn. split_and!; try done.
    unfold safe. simpl. split_and!; try done; try lia.
  - subst c. rewrite run_schedule_snoc in *.
    set (c := run_schedule e _ sched) in *.
    pose proof (act_clock e c a) as Hmono.
    destruct IH as (ph1 & ph2 & H1 & H2 & Hsafe & Hfresh); [lia|].
    destruct a as [| | ms]; cbn [act] in *.
    + destruct (thread_step_at cfg key e (store c) ph1) as (w' & ph' & Hs & Hwf' & Ht).
      { apply Hsafe. }
      rewrite H1. fold this in Hs. rewrite Hs. cbn [store caller1 caller2].
      exists ph', ph2. split_and!; try done.
      * apply (safe_move key e (clock w) (store c) ph1 ph2 w' ph' Ht);
          [lia | done | done].
      * intros He Hik Hlk.
        apply (fresh_move key e (clock w) (store c) ph1 ph2 w' ph' Ht He);
          [lia | done | auto].
    + destruct (thread_step_at cfg key e (store c) ph2) as (w' & ph' & Hs & Hwf' & Ht).
      { apply Hsafe. }
      rewrite H2. fold this in Hs. rewrite Hs. cbn [store caller1 caller2].
      exists ph1, ph'. split_and!; try done.
      * apply safe_sym.
        apply (safe_move key e (clock w) (store c) ph2 ph1 w' ph' Ht);
          [lia | done | by apply safe_sym].
      * intros He Hik Hlk. apply fresh_sym.
        apply (fresh_move key e (clock w) (store c) ph2 ph1 w' ph' Ht He);
          [lia | by apply safe_sym | apply fresh_sym; auto].
    + exists ph1, ph2. cbn [store caller1 caller2]. split_and!; try done.
      * by apply safe_tick.
      * intros He Hik Hlk. apply fresh_tick. auto.
Qed.

(** X20.  Two callers of [checkAndLock] on the same key with nobody else
    acting on the key, their calls interleaved in any order and time passing
    in between.  If the race is over before the lock TTL has elapsed since it
    began, at most one caller is told [lockAcquired]; and when the key starts
    with neither a completion record nor a lock record and no call is
    rejected, exactly one caller receives [LockAcquired] and the other
    receives [Contended]: with no confirmation in flight it cannot be
    [Duplicate]. *)
Theorem checkAndLock_race cfg e w key sched :
  let this := new_RedisService cfg in
  let c := run_schedule e (race_start this key w) sched in
  clock (store c) < clock w + lockTtlMs this →
  ∀ r1 r2,
    returned (caller1 c) = Some r1 → returned (caller2 c) = Some r2 →
    (* at most one caller is told that it holds the lock *)
    ¬ (lockAcquired r1 = Some true ∧ lockAcquired r2 = Some true) ∧
    (r1 = LockAcquired ∨ r1 = Contended ∨ ∃ id, r1 = Duplicate id) ∧
    (r2 = LockAcquired ∨ r2 = Contended ∨ ∃ id, r2 = Duplicate id) ∧
    (* exactly one on a fresh key with a reliable store *)
    (reliable e → live w (idempotencyKey key) = None →
     live w (lockKey key) = None →
     (r1 = LockAcquired ∧ r2 = Contended) ∨ (r1 = Contended ∧ r2 = LockAcquired)).
Proof.
  intros this c Hc r1 r2 Hr1 Hr2.
  destruct (race_invariant cfg key e w sched Hc)
    as (ph1 & ph2 & H1 & H2 & Hsafe & Hfresh).
  fold this in H1, H2. fold c in H1, H2.
  pose proof Hsafe as (Hwf1 & Hwf2 & _ & Hex & _).
  rewrite H1 in Hr1. rewrite H2 in Hr2.
  apply returned_at in Hr1; [|done]. apply returned_at in Hr2; [|done].
  subst ph1 ph2. simpl in Hwf1, Hwf2, Hex. split_and!; try done.
  - intros [Ha Hb]. apply Hex.
    destruct Hwf1 as [->|[->|[v ->]]]; try discriminate.
    destruct Hwf2 as [->|[->|[v ->]]]; try discriminate. done.
  - intros He Hik Hlk.
    destruct (Hfresh He Hik Hlk) as (_ & Hp1 & Hp2 & Hw1 & Hw2 & _).
    simpl in *.
    repeat case_bool_decide; subst; simpl in *; try done; tauto.
Qed.

(** ** Two callers among confirmations *)





















(** ** Sample runs *)

Lemma reliable_sample_env : reliable sample_env.
Proof. intros n. reflexivity. Defined.




(** With an empty result identifier the confirmation is not seen by the
    double check of the second caller (see C6): both callers receive
    [LockAcquired]. *)
Example race_blank_confirmation :
  let c := run_open sample_service "order-44" sample_env
             (open_start sample_service "order-44" empty_store)
             confirmed_blank in
  returned (caller1 (callers c)) = Some LockAcquired ∧
  returned (caller2 (callers c)) = Some LockAcquired ∧
  live (store (callers c)) (idempotencyKey "order-44") = Some "" ∧
  clock (store (callers c)) = clock empty_store.
Proof. split_and!; by vm_compute. Qed.

(** X20, witness: two callers alternate on the fresh key [order-42]. *)
Lemma checkAndLock_race_witness :
  let c := run_schedule sample_env
             (race_start sample_service "order-42" empty_store) alternating in
  returned (caller1 c) = Some LockAcquired ∧
  returned (caller2 c) = Some Contended ∧
  ¬ (lockAcquired LockAcquired = Some true ∧ lockAcquired Contended = Some true) ∧
  ((LockAcquired = LockAcquired ∧ Contended = Contended) ∨
   (LockAcquired = Contended ∧ Contended = LockAcquired)).
Proof.
  assert (H1 : returned (caller1 (run_schedule sample_env
             (race_start sample_service "order-42" empty_store) alternating))
               = Some LockAcquired) by (vm_compute; reflexivity).
  assert (H2 : returned (caller2 (run_schedule sample_env
             (race_start sample_service "order-42" empty_store) alternating))
               = Some Contended) by (vm_compute; reflexivity).
  assert (Hc : clock (store (run_schedule sample_env
             (race_start sample_service "order-42" empty_store) alternating))
               < clock empty_store + lockTtlMs sample_service)
    by (vm_compute; reflexivity).
  destruct (checkAndLock_race None sample_env empty_store "order-42" alternating
              Hc LockAcquired Contended H1 H2) as (Hex & _ & _ & Hone).
  split_and!; [exact H1 | exact H2 | exact Hex |].
  apply Hone; [exact reliable_sample_env | vm_compute; reflexivity
              | vm_compute; reflexivity].
Defined.

(** C2, counterexample: the lock of [order-43] holds ["tokenB"]; a rollback
    by the former holder (token ["tokenA"]) deletes it. *)
Lemma rollbackLock_deletes_foreign_lock :
  let o := exec sample_env locked_store (rollbackLock "order-43") in
  live locked_store (lockKey "order-43") = Some "tokenB" ∧
  "tokenA" ≠ "tokenB" ∧
  result o = inr tt ∧
  live (final o) (lockKey "order-43") = None ∧
  db (final o) ≠ db locked_store.
Proof.
  split_and!; by vm_compute.
Qed.

(** C2, witness. *)
Lemma rollbackLock_unconditional_witness :
  let o := exec sample_env locked_store (rollbackLock "order-43") in
  result o = inr tt ∧
  (∃ n, trace o = [Ev (redis_del (lockKey "order-43")) (inr (RInt n))]) ∧
  db (final o) = delete (lockKey "order-43") (db locked_store) ∧
  live (final o) (lockKey "order-43") = None ∧
  db (final o) !! idempotencyKey "order-43"
    = db locked_store !! idempotencyKey "order-43".
Proof.
  apply (rollbackLock_unconditional sample_env locked_store "order-43").
  reflexivity.
Defined.

(** C3, counterexample: the token stored under [lock:order-42] is not among
    the strings of the result. *)
Lemma checkAndLock_token_not_returned :
  let o := exec sample_env empty_store (checkAndLock sample_service "order-42") in
  ∃ r, result o = inr r ∧
       lockAcquired r = Some true ∧
       live (final o) (lockKey "order-42") = Some "1700000000000-82mvyr" ∧
       "1700000000000-82mvyr" ∉ strings_of_result r.
Proof.
  exists LockAcquired. split_and!; try by vm_compute.
  cbn. apply not_elem_of_nil.
Qed.

(** C3, witness. *)
Lemma checkAndLock_fresh_key_witness :
  let o := exec sample_env empty_store (checkAndLock sample_service "order-42") in
  result o = inr LockAcquired ∧
  strings_of_result LockAcquired = [] ∧
  db (final o) =
    <[lockKey "order-42" := Entry (newLockValue 1700000000000 "0.4fzyo82mvyr")
                                  (Some (1700000000000 + 5000))]> ∅ ∧
  live (final o) (lockKey "order-42")
    = Some (newLockValue 1700000000000 "0.4fzyo82mvyr").
Proof.
  apply (checkAndLock_fresh_key None sample_env empty_store "order-42").
  - exact reliable_sample_env.
  - vm_compute. reflexivity.
  - vm_compute. reflexivity.
Defined.

(** C4, witness: a confirmation that goes through, and one whose first call
    is rejected. *)
Lemma confirmReservation_spec_witness :
  (let o := exec sample_env locked_store
              (confirmReservation sample_service "order-43" "res-101") in
   result o = inr tt ∧
   live (final o) (idempotencyKey "order-43") = Some "res-101" ∧
   live (final o) (lockKey "order-43") = None) ∧
  (let o := exec broken_env locked_store
              (confirmReservation sample_service "order-43" "res-101") in
   result o = inl StoreUnavailable ∧
   db (final o) = db locked_store ∧
   live (final o) (lockKey "order-43") = Some "tokenB").
Proof.
  split.
  - destruct (confirmReservation_spec None sample_env locked_store
                "order-43" "res-101") as [_ Hok].
    destruct (Hok "OK") as (Hr & _ & Hdb); [reflexivity | reflexivity |].
    split_and!; [exact Hr | vm_compute; reflexivity | vm_compute; reflexivity].
  - destruct (confirmReservation_spec None broken_env locked_store
                "order-43" "res-101") as [Hfail _].
    destruct (Hfail StoreUnavailable) as (Hr & _ & Hdb); [reflexivity |].
    split_and!; [exact Hr | exact Hdb | vm_compute; reflexivity].
Defined.

(** C5, at the failing input.  The completion record of [order-44] holds the
    empty string and the lock is held by someone else: the record is present
    at the re-read, the read returns it, and the result is [Contended], not
    [Duplicate ""]. *)
Lemma checkAndLock_blank_recheck :
  let o := exec sample_env blank_locked_store
             (checkAndLock sample_service "order-44") in
  trace o =
    [Ev (redis_get (idempotencyKey "order-44")) (inr (RStr ""));
     Ev date_now (inr (RInt 1700000000000));
     Ev math_random_base36 (inr (RStr "0.4fzyo82mvyr"));
     Ev (redis_set_px_nx (lockKey "order-44") "1700000000000-82mvyr" 5000)
        (inr RNil);
     Ev (sleep 100) (inr RNil);
     Ev (redis_get (idempotencyKey "order-44")) (inr (RStr ""))] ∧
  live (final o) (idempotencyKey "order-44") = Some "" ∧
  result o = inr Contended ∧
  result o ≠ inr (Duplicate "").
Proof. split_and!; by vm_compute. Qed.

(** X21, witness: the lock of [order-43] is held by someone else. *)
Lemma checkAndLock_contention_witness :
  let o := exec sample_env locked_store (checkAndLock sample_service "order-43") in
  ∃ again : error + option string,
    [Ev (sleep 100) (inr RNil);
     Ev (redis_get (idempotencyKey "order-43")) (inr RNil)] =
    [Ev (sleep 100) (inr RNil);
     Ev (redis_get (idempotencyKey "order-43")) (reply_of again)] ∧
    result o = match again with
               | inl err => inl err
               | inr (Some v) =>
                   if String.eqb v "" then inr Contended else inr (Duplicate v)
               | inr None => inr Contended
               end.
Proof.
  apply (checkAndLock_contention None "order-43"
           (trace (exec sample_env locked_store
                     (checkAndLock sample_service "order-43")))
           (result (exec sample_env locked_store
                      (checkAndLock sample_service "order-43")))
           [Ev (redis_get (idempotencyKey "order-43")) (inr RNil);
            Ev date_now (inr (RInt 1700000000000));
            Ev math_random_base36 (inr (RStr "0.4fzyo82mvyr"))]
           "1700000000000-82mvyr").
  - apply exec_runs.
  - vm_compute. reflexivity.
Defined.

(** C6, at the failing input.  The completion record of [order-44] holds the
    empty string: the lock is acquired, the double check reads the record,
    no release follows and the result is [LockAcquired] with the lock kept. *)
Lemma checkAndLock_blank_double_check :
  let o := exec sample_env blank_store (checkAndLock sample_service "order-44") in
  trace o =
    [Ev (redis_get (idempotencyKey "order-44")) (inr (RStr ""));
     Ev date_now (inr (RInt 1700000000000));
     Ev math_random_base36 (inr (RStr "0.4fzyo82mvyr"));
     Ev (redis_set_px_nx (lockKey "order-44") "1700000000000-82mvyr" 5000)
        (inr (RStr "OK"));
     Ev (redis_get (idempotencyKey "order-44")) (inr (RStr ""))] ∧
  result o = inr LockAcquired ∧
  live (final o) (lockKey "order-44") = Some "1700000000000-82mvyr".
Proof. split_and!; by vm_compute. Qed.

Lemma late_completion_runs :
  runs (checkAndLock sample_service "order-42") late_completion_trace
       (inr (Duplicate "res-100")).
Proof.
  unfold checkAndLock. cbn [runs bind call].
  right. exists None. eexists. split; [reflexivity|]. cbn [JS.truthy runs].
  right. exists 1700000000000. eexists. split; [reflexivity|]. cbn [runs].
  right. exists "0.4fzyo82mvyr". eexists. split; [reflexivity|]. cbn [runs].
  right. exists (Some "OK"). eexists. split; [reflexivity|].
  change (negb (JS.truthy (Some "OK"))) with false. cbn [runs].
  right. exists (Some "res-100"). eexists. split; [reflexivity|].
  change (JS.truthy (Some "res-100")) with true.
  cbn [releaseLock runs bind call].
  right. exists (RInt 1). eexists. split; [reflexivity|]. cbn [runs]. done.
Defined.

(** X22, witness: the run [late_completion_trace]. *)
Lemma checkAndLock_double_check_witness :
  (∃ released : error + reply,
     [Ev (redis_eval release_script [lockKey "order-42"]
            ["1700000000000-82mvyr"]) (inr (RInt 1))] =
     [Ev (redis_eval release_script [lockKey "order-42"]
            ["1700000000000-82mvyr"]) released] ∧
     inr (Duplicate "res-100") =
       match released with
       | inl err => inl err
       | inr _ => inr (Duplicate "res-100")
       end).
Proof.
  apply (checkAndLock_double_check None "order-42" late_completion_trace
           (inr (Duplicate "res-100"))
           [Ev (redis_get (idempotencyKey "order-42")) (inr RNil);
            Ev date_now (inr (RInt 1700000000000));
            Ev math_random_base36 (inr (RStr "0.4fzyo82mvyr"))]
           "1700000000000-82mvyr" "res-100"
           [Ev (redis_eval release_script [lockKey "order-42"]
                  ["1700000000000-82mvyr"]) (inr (RInt 1))]).
  - exact late_completion_runs.
  - reflexivity.
  - discriminate.
Defined.

(** C7, at the failing input.  The completion record of [order-44] is present
    (it holds the empty string): [checkAndLock] does not resolve to
    [Duplicate] on the first read and goes on to write the lock. *)
Lemma checkAndLock_blank_no_fast_path :
  let o := exec sample_env blank_store (checkAndLock sample_service "order-44") in
  live blank_store (idempotencyKey "order-44") = Some "" ∧
  result o ≠ inr (Duplicate "") ∧
  Exists (fun ev => is_write (ev_cmd ev) = true) (trace o) ∧
  db (final o) ≠ db blank_store.
Proof.
  split_and!; try by vm_compute.
  vm_compute. apply Exists_cons_tl, Exists_cons_tl, Exists_cons_tl, Exists_cons_hd.
  reflexivity.
Qed.

(** X23, witness. *)
Lemma checkAndLock_fast_path_witness :
  let o := exec sample_env completed_store
             (checkAndLock sample_service "order-42") in
  result o = inr (Duplicate "res-100") ∧
  trace o = [Ev (redis_get (idempotencyKey "order-42")) (inr (RStr "res-100"))] ∧
  db (final o) = db completed_store.
Proof.
  apply (checkAndLock_fast_path None sample_env completed_store
           "order-42" "res-100").
  - reflexivity.
  - vm_compute. reflexivity.
  - discriminate.
Defined.

(** C8, witness: release with the stored token, and with another one. *)
Lemma releaseLock_compare_and_delete_witness :
  (let o := exec sample_env locked_store (releaseLock "lock:order-43" "tokenB") in
   result o = inr true ∧ live (final o) "lock:order-43" = None) ∧
  (let o := exec sample_env locked_store (releaseLock "lock:order-43" "tokenA") in
   result o = inr false ∧ db (final o) = db locked_store ∧
   live (final o) "lock:order-43" = Some "tokenB").
Proof.
  split.
  - destruct (releaseLock_compare_and_delete sample_env locked_store
                "lock:order-43" "tokenB") as (_ & Hhit & _); [reflexivity|].
    destruct Hhit as (Hr & Hl & _); [vm_compute; reflexivity|].
    split; [exact Hr | exact Hl].
  - destruct (releaseLock_compare_and_delete sample_env locked_store
                "lock:order-43" "tokenA") as (_ & _ & Hmiss); [reflexivity|].
    destruct Hmiss as (Hr & Hdb); [vm_compute; discriminate|].
    split_and!; [exact Hr | exact Hdb | vm_compute; reflexivity].
Defined.

(** C9, counterexample: the completion record of [order-42] is read under
    [reservation_key:order-42], not under [completion:order-42]. *)
Lemma completion_prefix_is_not_completion :
  trace (exec sample_env completed_store (checkAndLock sample_service "order-42"))
  = [Ev (redis_get "reservation_key:order-42") (inr (RStr "res-100"))] ∧
  on_completion (redis_get "reservation_key:order-42") = true ∧
  cmd_keys (redis_get "reservation_key:order-42") ≠ ["completion:" +:+ "order-42"].
Proof. split_and!; by vm_compute. Qed.

(** C9, witness. *)
Lemma coordinator_key_namespaces_witness :
  Forall (fun ev => namespaced "order-42" (ev_cmd ev))
    (trace (exec sample_env empty_store (checkAndLock sample_service "order-42"))) ∧
  idempotencyKey "order-42" = "reservation_key:order-42" ∧
  lockKey "order-42" = "lock:order-42".
Proof.
  apply (coordinator_key_namespaces None "order-42" "res-100").
  left. eexists. apply exec_runs.
Defined.

(** C10, witness. *)
Lemma checkAndLock_result_invariant_witness :
  let o := exec sample_env completed_store
             (checkAndLock sample_service "order-42") in
  ∃ r, result o = inr r ∧
    ¬ (isDuplicate r = true ∧ lockAcquired r = Some true) ∧
    (isDuplicate r = true →
       ∃ v, existingReservationId r = Some v ∧
            last (reads_of (idempotencyKey "order-42") (trace o))
              = Some (inr (RStr v))) ∧
    (lockAcquired r = Some true → existingReservationId r = None) ∧
    existingReservationId r = live (final o) (idempotencyKey "order-42").
Proof.
  exists (Duplicate "res-100").
  assert (Hr : result (exec sample_env completed_store
                         (checkAndLock sample_service "order-42"))
               = inr (Duplicate "res-100")) by (vm_compute; reflexivity).
  destruct (checkAndLock_result_invariant None "order-42") as [Hruns Hexec].
  pose proof (exec_runs sample_env (checkAndLock sample_service "order-42")
                completed_store) as Hrun.
  cbv zeta. rewrite Hr in Hrun.
  destruct (Hruns _ _ Hrun) as (Ha & Hb & Hc).
  split_and!; [exact Hr | exact Ha | exact Hb | exact Hc |].
  apply (Hexec sample_env completed_store (Duplicate "res-100") Hr eq_refl).
Defined.

(** * Further properties of the code *)

(** ** Frames *)

Lemma release_script_frame w KEYS ARGV (P : string → Prop) k :
  Forall P KEYS → ¬ P k →
  db (store_eval w release_script KEYS ARGV).2 !! k = db w !! k.
Proof.
  intros HP Hk. unfold store_eval, release_script.
  cbn [lua_run lua_eval lua_index].
  destruct KEYS as [|k1 KEYS]; cbn [lookup list_lookup lua_key]; [done|].
  apply Forall_cons in HP as [HP1 _].
  unfold store_get.
  destruct (lua_val_eqb _ _); cbn [lua_truthy lua_run lua_eval lua_index
                                   lookup list_lookup lua_key]; [|done].
  unfold store_del. cbn [snd db with_db].
  apply lookup_delete_ne. intros ->. done.
Qed.

(** A call that writes within [P] leaves every key outside [P] as it was. *)
Lemma handle_frame e w c (P : string → Prop) k :
  cmd_writes_within P c → ¬ P k → db (handle e w c).2 !! k = db w !! k.
Proof.
  intros Hc Hk. unfold handle.
  destruct (is_redis c && fault_of e (seq w)); [done|].
  destruct c; cbn [cmd_writes_within] in Hc; try done.
  - unfold store_set_px_nx. destruct (Z.leb _ _); [done|].
    destruct (live w key); [done|]. cbn [snd db next_seq with_db].
    apply lookup_insert_ne. by intros ->.
  - unfold store_setex. destruct (Z.leb _ _); [done|].
    cbn [snd db next_seq with_db]. apply lookup_insert_ne. by intros ->.
  - unfold store_del. cbn [snd db next_seq with_db].
    apply lookup_delete_ne. by intros ->.
  - destruct Hc as [-> HP].
    pose proof (release_script_frame w KEYS ARGV P k HP Hk) as Hs.
    by destruct (store_eval w release_script KEYS ARGV) as [r w'].
Qed.

Lemma exec_frame {A} e (p : prog A) (P : string → Prop) k :
  writes_within P p → ¬ P k →
  ∀ w, db (final (exec e w p)) !! k = db w !! k.
Proof.
  intros Hp Hk. induction p as [a | c kont IH]; intros w; cbn [exec final].
  - done.
  - destruct Hp as [Hc Hrest].
    pose proof (handle_frame e w c P k Hc Hk) as Hh.
    destruct (handle e w c) as [[err | x] w']; cbn [final snd] in *; [done|].
    rewrite IH by auto. done.
Qed.

(** A call that does not write leaves the keyspace as it was. *)
Lemma handle_read_only e w c : is_write c = false → db (handle e w c).2 = db w.
Proof.
  intros Hc. unfold handle.
  destruct (is_redis c && fault_of e (seq w)); [done|].
  by destruct c.
Qed.

Lemma exec_read_only {A} e (p : prog A) :
  read_only p → ∀ w, db (final (exec e w p)) = db w.
Proof.
  intros Hp. induction p as [a | c kont IH]; intros w; cbn [exec final].
  - done.
  - destruct Hp as [Hc Hrest].
    pose proof (handle_read_only e w c Hc) as Hh.
    destruct (handle e w c) as [[err | x] w']; cbn [final snd] in *; [done|].
    rewrite IH by auto. done.
Qed.

Lemma checkAndLock_writes_within this key :
  writes_within (fun k => k = lockKey key) (checkAndLock this key).
Proof.
  unfold checkAndLock. cbn [bind call writes_within cmd_writes_within].
  split; [done|]. intros existingValue.
  destruct (JS.truthy existingValue); cbn [writes_within cmd_writes_within]; [done|].
  split; [done|]. intros now. split; [done|]. intros random36.
  split; [done|]. intros lockAcquired.
  destruct (negb (JS.truthy lockAcquired)); cbn [writes_within cmd_writes_within].
  - split; [done|]. intros _. split; [done|]. intros checkAgain. done.
  - split; [done|]. intros doubleCheck.
    destruct (JS.truthy doubleCheck);
      cbn [releaseLock bind call writes_within cmd_writes_within]; [|done].
    split; [|done]. split; [done|]. by apply Forall_cons.
Qed.

Lemma lockKey_inj k1 k2 : lockKey k1 = lockKey k2 → k1 = k2.
Proof. intros H. cbv [lockKey String.append] in H. by simplify_eq. Qed.

Lemma idempotencyKey_inj k1 k2 : idempotencyKey k1 = idempotencyKey k2 → k1 = k2.
Proof. intros H. cbv [idempotencyKey String.append] in H. by simplify_eq. Qed.

Lemma lockKey_not_idempotencyKey k1 k2 : lockKey k1 ≠ idempotencyKey k2.
Proof. unfold lockKey, idempotencyKey. cbn. discriminate. Qed.

(** X1.  Whatever the store answers and whichever call is rejected,
    [checkAndLock(key)] leaves every key other than [lock:<key>] as it was: it
    never creates, changes or deletes a completion record (its own included)
    nor the lock of another idempotency key. *)
Theorem checkAndLock_frame cfg e w key :
  let o := exec e w (checkAndLock (new_RedisService cfg) key) in
  (∀ k, k ≠ lockKey key → db (final o) !! k = db w !! k) ∧
  (∀ key', db (final o) !! idempotencyKey key' = db w !! idempotencyKey key') ∧
  (∀ key', key' ≠ key → db (final o) !! lockKey key' = db w !! lockKey key').
Proof.
  intros o.
  assert (Hframe : ∀ k, k ≠ lockKey key → db (final o) !! k = db w !! k).
  { intros k Hk. subst o.
    apply (exec_frame e _ (fun k => k = lockKey key)); [|done].
    apply checkAndLock_writes_within. }
  split_and!; [done | |].
  - intros key'. apply Hframe. intros H. symmetry in H.
    by apply lockKey_not_idempotencyKey in H.
  - intros key' Hne. apply Hframe. intros H. by apply lockKey_inj in H.
Qed.
(** ** One method after another *)

Lemma exec_bind {A B} e (p : prog A) (f : A → prog B) :
  ∀ w,
    exec e w (bind p f) =
    match result (exec e w p) with
    | inl err => Outcome (inl err) (final (exec e w p)) (trace (exec e w p))
    | inr a =>
        let o := exec e (final (exec e w p)) (f a) in
        Outcome (result o) (final o) (trace (exec e w p) ++ trace o)
    end.
Proof.
  induction p as [a | c k IH]; intros w; cbn [bind exec].
  - cbn [result final trace app]. by destruct (exec e w (f a)).
  - destruct (handle e w c) as [[err | x] w']; cbn [result final trace]; [done|].
    rewrite IH. by destruct (result (exec e w' (k x))).
Qed.

Lemma live_ext w w' k :
  db w' !! k = db w !! k → clock w' = clock w → live w' k = live w k.
Proof. intros Hdb Hc. unfold live. by rewrite Hdb, Hc. Qed.

(** A record seen later was there before, with the same value. *)
Lemma live_later w w' k v :
  db w' !! k = db w !! k → clock w ≤ clock w' →
  live w' k = Some v → live w k = Some v.
Proof.
  intros Hdb Hc. unfold live. rewrite Hdb.
  destruct (db w !! k) as [en|]; [|done]. unfold expired.
  destruct (deadline en) as [d|]; [|done].
  destruct (Z.leb_spec d (clock w')); [done|].
  destruct (Z.leb_spec d (clock w)); [lia | done].
Qed.

Lemma falsy_later w w' k :
  db w' !! k = db w !! k → clock w ≤ clock w' →
  JS.truthy (live w k) = false → JS.truthy (live w' k) = false.
Proof.
  intros Hdb Hc Hf. destruct (live w' k) as [v|] eqn:Hl; [|done].
  by rewrite (live_later w w' k v Hdb Hc Hl) in Hf.
Qed.

(** A record written to expire at [d] is there exactly before [d]. *)
Lemma live_deadline w k v d :
  db w !! k = Some (Entry v (Some d)) →
  live w k = if decide (clock w < d) then Some v else None.
Proof.
  intros Hdb. unfold live. rewrite Hdb. unfold expired. cbn [deadline value].
  destruct (Z.leb_spec d (clock w)); case_decide; done || lia.
Qed.

(** *** [checkAndLock] with nobody else writing *)

Lemma exec_checkAndLock_found this e w key v :
  fault_of e (seq w) = false →
  live w (idempotencyKey key) = Some v → v ≠ "" →
  exec e w (checkAndLock this key) =
  Outcome (inr (Duplicate v)) (next_seq w)
          [Ev (redis_get (idempotencyKey key)) (inr (RStr v))].
Proof.
  intros Hf Hl Hv. unfold checkAndLock. cbn [bind call].
  rewrite exec_Op, handle_get by done. exec_redex.
  rewrite Hl, (truthy_Some v Hv). reflexivity.
Qed.

Lemma exec_checkAndLock_free cfg e w key :
  fault_of e (seq w) = false →
  fault_of e (S (S (S (seq w)))) = false →
  fault_of e (S (S (S (S (seq w))))) = false →
  JS.truthy (live w (idempotencyKey key)) = false →
  live w (lockKey key) = None →
  let o := exec e w (checkAndLock (new_RedisService cfg) key) in
  result o = inr LockAcquired ∧
  db (final o) = <[lockKey key :=
                     Entry (newLockValue (clock w) (random_of e (S (S (seq w)))))
                           (Some (clock w + 5000))]> (db w) ∧
  clock (final o) = clock w.
Proof.
  intros Hf0 Hf3 Hf4 Hc Hl o. subst o. unfold checkAndLock. cbn [bind call].
  rewrite exec_Op, handle_get by done. exec_redex. rewrite Hc.
  rewrite exec_Op, handle_date_now. exec_redex.
  rewrite exec_Op, handle_random. exec_redex.
  rewrite exec_Op. cbn [new_RedisService lockTtlMs].
  rewrite handle_set_absent; [| done | lia | done]. exec_redex.
  change (negb (JS.truthy (Some "OK"))) with false. cbv iota.
  rewrite exec_Op, handle_get by done. exec_redex.
  rewrite !live_next_seq, live_insert_ne, !live_next_seq by apply keys_distinct.
  rewrite Hc. cbn [exec]. exec_redex. done.
Qed.

Lemma exec_checkAndLock_busy cfg e w key s :
  fault_of e (seq w) = false →
  fault_of e (S (S (S (seq w)))) = false →
  fault_of e (S (S (S (S (S (seq w)))))) = false →
  JS.truthy (live w (idempotencyKey key)) = false →
  live w (lockKey key) = Some s →
  let o := exec e w (checkAndLock (new_RedisService cfg) key) in
  result o = inr Contended ∧
  db (final o) = db w ∧
  clock (final o) = clock w + 100.
Proof.
  intros Hf0 Hf3 Hf5 Hc Hl o. subst o. unfold checkAndLock. cbn [bind call].
  rewrite exec_Op, handle_get by done. exec_redex. rewrite Hc.
  rewrite exec_Op, handle_date_now. exec_redex.
  rewrite exec_Op, handle_random. exec_redex.
  rewrite exec_Op. cbn [new_RedisService lockTtlMs].
  rewrite (handle_set_present _ _ _ _ _ s); [| done | lia | done]. exec_redex.
  change (negb (JS.truthy None)) with true. cbv iota.
  rewrite exec_Op, handle_sleep. exec_redex.
  rewrite exec_Op, handle_get by done. exec_redex.
  cbn [exec]. exec_redex.
  assert (Hlater : JS.truthy
            (live (next_seq (advance (next_seq (next_seq (next_seq (next_seq w)))) 100))
                  (idempotencyKey key)) = false).
  { apply (falsy_later w); [done | cbn; lia | done]. }
  unfold JS.or_undefined. rewrite Hlater. split_and!; [done | done |].
  cbn. lia.
Qed.

(** The double check is rejected: the lock stays. *)
Lemma exec_checkAndLock_leak cfg e w key :
  fault_of e (seq w) = false →
  fault_of e (S (S (S (seq w)))) = false →
  fault_of e (S (S (S (S (seq w))))) = true →
  JS.truthy (live w (idempotencyKey key)) = false →
  live w (lockKey key) = None →
  let o := exec e w (checkAndLock (new_RedisService cfg) key) in
  result o = inl StoreUnavailable ∧
  db (final o) = <[lockKey key :=
                     Entry (newLockValue (clock w) (random_of e (S (S (seq w)))))
                           (Some (clock w + 5000))]> (db w) ∧
  clock (final o) = clock w.
Proof.
  intros Hf0 Hf3 Hf4 Hc Hl o. subst o. unfold checkAndLock. cbn [bind call].
  rewrite exec_Op, handle_get by done. exec_redex. rewrite Hc.
  rewrite exec_Op, handle_date_now. exec_redex.
  rewrite exec_Op, handle_random. exec_redex.
  rewrite exec_Op. cbn [new_RedisService lockTtlMs].
  rewrite handle_set_absent; [| done | lia | done]. exec_redex.
  change (negb (JS.truthy (Some "OK"))) with false. cbv iota.
  rewrite exec_Op, handle_fault by done. exec_redex. done.
Qed.

(** With nothing in the completion record, [checkAndLock] does not report a
    duplicate, whichever call is rejected. *)
Lemma exec_checkAndLock_not_duplicate cfg e w key r :
  JS.truthy (live w (idempotencyKey key)) = false →
  result (exec e w (checkAndLock (new_RedisService cfg) key)) = inr r →
  isDuplicate r = false.
Proof.
  intros Hc. unfold checkAndLock. cbn [bind call].
  exec_call. rewrite Hc.
  do 2 (rewrite exec_Op; cbn [handle is_redis andb]; exec_redex).
  exec_call.
  - change (negb (JS.truthy None)) with true. cbv iota.
    rewrite exec_Op, handle_sleep. exec_redex. exec_call.
    cbn [exec result]. intros [= <-]. cbn [isDuplicate].
    apply (falsy_later w); [done | cbn; lia | done].
  - change (negb (JS.truthy (Some "OK"))) with false. cbv iota. exec_call.
    rewrite !live_next_seq, live_insert_ne, !live_next_seq by apply keys_distinct.
    rewrite Hc. cbn [exec result]. by intros [= <-].
Qed.

(** ** Properties of [checkAndLock] beyond the contract *)

(** X2.  In every run, whatever the store answers, [checkAndLock] makes at
    most six calls: at most two reads of the completion record, one SET NX,
    one [sleep] and one EVAL; it never issues SETEX, DEL or EXISTS. *)
Theorem checkAndLock_calls_bounded cfg key tr r :
  runs (checkAndLock (new_RedisService cfg) key) tr r →
  (length tr ≤ 6)%nat ∧
  (count_calls is_get tr ≤ 2)%nat ∧
  (count_calls is_set_nx tr ≤ 1)%nat ∧
  (count_calls is_sleep tr ≤ 1)%nat ∧
  (count_calls is_eval tr ≤ 1)%nat ∧
  count_calls is_setex_del_exists tr = 0%nat.
Proof.
  intros H. runs_inv H; unfold count_calls; split_and!; vm_compute; lia.
Qed.

(** X3.  With nobody else writing and no call rejected, the result of
    [checkAndLock] is decided by the store it starts from: [Duplicate v]
    exactly when the completion record holds the non-empty [v]; otherwise
    [Contended] exactly when the lock record is there, and [LockAcquired]
    exactly when it is not.  Only the [Contended] path takes time (100 ms). *)
Theorem checkAndLock_alone cfg e w key :
  reliable e →
  let o := exec e w (checkAndLock (new_RedisService cfg) key) in
  ∃ r, result o = inr r ∧
    (∀ v, r = Duplicate v ↔ live w (idempotencyKey key) = Some v ∧ v ≠ "") ∧
    (r = Contended ↔
       JS.truthy (live w (idempotencyKey key)) = false ∧
       is_Some (live w (lockKey key))) ∧
    (r = LockAcquired ↔
       JS.truthy (live w (idempotencyKey key)) = false ∧
       live w (lockKey key) = None) ∧
    clock (final o) = clock w + (if decide (r = Contended) then 100 else 0).
Proof.
  intros He o. subst o.
  destruct (JS.truthy (live w (idempotencyKey key))) eqn:Hc.
  - apply truthy_inv in Hc as (v & Hl & Hv).
    rewrite (exec_checkAndLock_found _ e w key v) by done.
    exists (Duplicate v). cbn [result final clock next_seq].
    rewrite Hl.
    split_and!; [done | | | |].
    + intros v'. split; [by intros [= <-] | by intros [[= ->] _]].
    + split; [discriminate | by intros [? _]].
    + split; [discriminate | by intros [? _]].
    + case_decide; [discriminate | lia].
  - destruct (live w (lockKey key)) as [s|] eqn:Hl.
    + destruct (exec_checkAndLock_busy cfg e w key s) as (Hr & _ & Hclk); try done.
      exists Contended. split_and!; [done | | | |].
      * intros v. split; [discriminate|]. intros [Hv Hne].
        rewrite Hv, (truthy_Some v Hne) in Hc. discriminate.
      * split; [by eauto | done].
      * split; [discriminate | by intros [_ ?]].
      * rewrite Hclk. by case_decide.
    + destruct (exec_checkAndLock_free cfg e w key) as (Hr & _ & Hclk); try done.
      exists LockAcquired. split_and!; [done | | | |].
      * intros v. split; [discriminate|]. intros [Hv Hne].
        rewrite Hv, (truthy_Some v Hne) in Hc. discriminate.
      * split; [discriminate | by intros [_ [? ?]]].
      * done.
      * rewrite Hclk. case_decide; [discriminate | lia].
Qed.

(** X4.  When the double-check read is rejected after the lock was taken,
    [checkAndLock] rejects without releasing the lock: the lock record stays
    for its full 5000 ms, and is gone after that. *)
Theorem checkAndLock_double_check_rejected cfg e w key :
  fault_of e (seq w) = false →
  fault_of e (S (S (S (seq w)))) = false →
  fault_of e (S (S (S (S (seq w))))) = true →
  JS.truthy (live w (idempotencyKey key)) = false →
  live w (lockKey key) = None →
  let o := exec e w (checkAndLock (new_RedisService cfg) key) in
  let token := newLockValue (clock w) (random_of e (S (S (seq w)))) in
  result o = inl StoreUnavailable ∧
  (∀ ms, 0 ≤ ms < 5000 → live (advance (final o) ms) (lockKey key) = Some token) ∧
  (∀ ms, 5000 ≤ ms → live (advance (final o) ms) (lockKey key) = None).
Proof.
  intros Hf0 Hf3 Hf4 Hc Hl o token.
  destruct (exec_checkAndLock_leak cfg e w key) as (Hr & Hdb & Hclk); try done.
  fold o in Hr, Hdb, Hclk. split; [done|].
  assert (Hlive : ∀ ms, live (advance (final o) ms) (lockKey key) =
                        if decide (clock (final o) + Z.max 0 ms < clock w + 5000)
                        then Some token else None).
  { intros ms. apply live_deadline. cbn [db advance]. rewrite Hdb.
    apply lookup_insert_eq. }
  split; intros ms Hms; rewrite Hlive, Hclk; case_decide; done || lia.
Qed.

(** ** Confirmation, rollback and expiry *)

Lemma exec_confirmReservation_written cfg e w key R :
  fault_of e (seq w) = false →
  0 < ttlSeconds (new_RedisService cfg) →
  let o := exec e w (confirmReservation (new_RedisService cfg) key R) in
  db (final o) !! idempotencyKey key =
    Some (Entry R (Some (clock w + ttlSeconds (new_RedisService cfg) * 1000))) ∧
  clock (final o) = clock w ∧
  (fault_of e (S (seq w)) = false →
     result o = inr tt ∧ db (final o) !! lockKey key = None) ∧
  (fault_of e (S (seq w)) = true →
     result o = inl StoreUnavailable ∧
     db (final o) =
       <[idempotencyKey key :=
           Entry R (Some (clock w + ttlSeconds (new_RedisService cfg) * 1000))]>
         (db w)).
Proof.
  intros Hf Httl o. subst o. unfold confirmReservation. cbn [bind call].
  rewrite exec_Op, handle_setex by done. exec_redex. rewrite exec_Op.
  destruct (fault_of e (S (seq w))) eqn:Hf2.
  - rewrite handle_fault by done. exec_redex. cbn [db clock next_seq with_db].
    rewrite lookup_insert_eq. split_and!; done.
  - rewrite handle_del by done. exec_redex. cbn [exec]. exec_redex.
    cbn [db clock next_seq with_db].
    rewrite lookup_delete_ne by apply keys_distinct.
    rewrite lookup_insert_eq, lookup_delete_eq. split_and!; done.
Qed.

(** X5.  When the DEL of [confirmReservation] is rejected, the completion
    record is already written and stays, the lock record is left as it was,
    and the rejection reaches the caller. *)
Theorem confirmReservation_del_rejected cfg e w key R :
  fault_of e (seq w) = false →
  0 < ttlSeconds (new_RedisService cfg) →
  fault_of e (S (seq w)) = true →
  let o := exec e w (confirmReservation (new_RedisService cfg) key R) in
  result o = inl StoreUnavailable ∧
  db (final o) !! idempotencyKey key =
    Some (Entry R (Some (clock w + ttlSeconds (new_RedisService cfg) * 1000))) ∧
  db (final o) !! lockKey key = db w !! lockKey key.
Proof.
  intros Hf Httl Hf2 o.
  destruct (exec_confirmReservation_written cfg e w key R Hf Httl)
    as (Hik & _ & _ & Hrej). fold o in Hik, Hrej.
  destruct (Hrej Hf2) as [Hr Hdb]. split_and!; [done | done |].
  rewrite Hdb. apply lookup_insert_ne. intros H. symmetry in H.
  by apply keys_distinct in H.
Qed.

(** X6.  After [confirmReservation(key, R)] with a non-empty [R], every
    [checkAndLock(key)] started before [ttlSeconds] have passed returns
    [Duplicate R] on its first read, whatever happened to the lock and to the
    other keys in between; started once [ttlSeconds] have passed, it no longer
    reports a duplicate. *)
Theorem confirmed_then_duplicate cfg e w key R w' :
  fault_of e (seq w) = false →
  0 < ttlSeconds (new_RedisService cfg) →
  R ≠ "" →
  db w' !! idempotencyKey key =
    db (final (exec e w (confirmReservation (new_RedisService cfg) key R)))
      !! idempotencyKey key →
  clock w ≤ clock w' →
  (clock w' < clock w + ttlSeconds (new_RedisService cfg) * 1000 →
   fault_of e (seq w') = false →
   exec e w' (checkAndLock (new_RedisService cfg) key) =
   Outcome (inr (Duplicate R)) (next_seq w')
           [Ev (redis_get (idempotencyKey key)) (inr (RStr R))]) ∧
  (clock w + ttlSeconds (new_RedisService cfg) * 1000 ≤ clock w' →
   ∀ r, result (exec e w' (checkAndLock (new_RedisService cfg) key)) = inr r →
        isDuplicate r = false).
Proof.
  intros Hf Httl HR Hdb Hclk.
  destruct (exec_confirmReservation_written cfg e w key R Hf Httl) as (Hik & _).
  rewrite Hik in Hdb.
  pose proof (live_deadline w' _ _ _ Hdb) as Hlive.
  split.
  - intros Hin Hf'. apply exec_checkAndLock_found; [done | | done].
    rewrite Hlive. by case_decide.
  - intros Hout r Hr.
    apply (exec_checkAndLock_not_duplicate cfg e w' key r); [|done].
    rewrite Hlive. case_decide; [lia | done].
Qed.

Lemma exec_rollbackLock e w key :
  fault_of e (seq w) = false →
  exec e w (rollbackLock key) =
  Outcome (inr tt) (next_seq (with_db w (delete (lockKey key) (db w))))
    [Ev (redis_del (lockKey key))
        (inr (RInt (match live w (lockKey key) with Some _ => 1 | None => 0 end)))].
Proof.
  intros Hf. unfold rollbackLock. cbn [bind call].
  rewrite exec_Op, handle_del by done. reflexivity.
Qed.

(** X7.  After [rollbackLock(key)], with no completion record, an immediate
    [checkAndLock(key)] acquires the lock, whoever held it before and without
    waiting for any expiry. *)
Theorem rollback_then_acquire cfg e w key :
  reliable e →
  JS.truthy (live w (idempotencyKey key)) = false →
  let o := exec e w (rollbackLock key;; checkAndLock (new_RedisService cfg) key) in
  result o = inr LockAcquired ∧
  live (final o) (lockKey key)
    = Some (newLockValue (clock w) (random_of e (S (S (S (seq w)))))) ∧
  clock (final o) = clock w.
Proof.
  intros He Hc o. subst o. rewrite exec_bind, exec_rollbackLock by done.
  cbv zeta. cbn [result final trace].
  set (w1 := next_seq (with_db w (delete (lockKey key) (db w)))).
  destruct (exec_checkAndLock_free cfg e w1 key) as (Hr & Hdb & Hclk); try done.
  - rewrite <- Hc. f_equal. apply live_ext; [|done].
    cbn. apply lookup_delete_ne, keys_distinct.
  - apply live_delete_eq.
  - split_and!; [done | | done].
    rewrite (live_deadline _ _ _ _ ltac:(rewrite Hdb; apply lookup_insert_eq)).
    rewrite Hclk. cbn [clock w1 next_seq with_db seq]. case_decide; [done | lia].
Qed.

(** X8.  A lock taken by [checkAndLock] and neither confirmed nor rolled
    back turns away the callers that start within 5000 ms of its taking
    ([Contended]) and gives way to the first one that starts later
    ([LockAcquired]). *)
Theorem lock_blocks_for_ttl cfg e w key w' :
  reliable e →
  JS.truthy (live w (idempotencyKey key)) = false →
  live w (lockKey key) = None →
  db w' = db (final (exec e w (checkAndLock (new_RedisService cfg) key))) →
  clock w ≤ clock w' →
  (clock w' < clock w + 5000 →
   result (exec e w' (checkAndLock (new_RedisService cfg) key)) = inr Contended) ∧
  (clock w + 5000 ≤ clock w' →
   result (exec e w' (checkAndLock (new_RedisService cfg) key)) = inr LockAcquired).
Proof.
  intros He Hc Hl Hdb' Hclk.
  destruct (exec_checkAndLock_free cfg e w key) as (_ & Hdb & _); try done.
  rewrite Hdb in Hdb'.
  assert (Hc' : JS.truthy (live w' (idempotencyKey key)) = false).
  { apply (falsy_later w); [|done|done]. rewrite Hdb'.
    apply lookup_insert_ne, keys_distinct. }
  assert (Hlive := live_deadline w' (lockKey key) _ _
                     ltac:(rewrite Hdb'; apply lookup_insert_eq)).
  split; intros Ht.
  - destruct (exec_checkAndLock_busy cfg e w' key
                (newLockValue (clock w) (random_of e (S (S (seq w))))))
      as (Hr & _); try done.
    rewrite Hlive. by case_decide.
  - destruct (exec_checkAndLock_free cfg e w' key) as (Hr & _); try done.
    rewrite Hlive. case_decide; [lia | done].
Qed.

(** X9.  The completion record is not write-once: a second
    [confirmReservation] for the same key replaces the result identifier, and
    [checkAndLock] then reports the second one. *)
Theorem confirm_twice_last_wins cfg e w key R1 R2 :
  reliable e →
  0 < ttlSeconds (new_RedisService cfg) →
  R2 ≠ "" →
  let this := new_RedisService cfg in
  result (exec e w (confirmReservation this key R1;;
                    confirmReservation this key R2;;
                    checkAndLock this key))
  = inr (Duplicate R2).
Proof.
  intros He Httl HR2 this. subst this. rewrite exec_bind.
  destruct (exec_confirmReservation_written cfg e w key R1 (He _) Httl)
    as (_ & _ & Hok & _).
  destruct (Hok (He _)) as [Hr1 _]. rewrite Hr1. cbv zeta. cbn [result].
  set (w1 := final (exec e w (confirmReservation _ key R1))).
  rewrite exec_bind.
  destruct (exec_confirmReservation_written cfg e w1 key R2 (He _) Httl)
    as (Hik & Hclk & Hok2 & _).
  destruct (Hok2 (He _)) as [Hr2 _]. rewrite Hr2. cbv zeta. cbn [result].
  rewrite (exec_checkAndLock_found _ e _ key R2); [done | done | | done].
  rewrite (live_deadline _ _ _ _ Hik), Hclk. case_decide; [done | lia].
Qed.

(** ** The simple methods *)

Lemma exec_setIdempotencyKey cfg e w key R :
  fault_of e (seq w) = false →
  0 < ttlSeconds (new_RedisService cfg) →
  exec e w (setIdempotencyKey (new_RedisService cfg) key R) =
  Outcome (inr tt)
    (next_seq (with_db w
       (<[idempotencyKey key :=
            Entry R (Some (clock w + ttlSeconds (new_RedisService cfg) * 1000))]>
          (db w))))
    [Ev (redis_setex (idempotencyKey key) (ttlSeconds (new_RedisService cfg)) R)
        (inr (RStr "OK"))].
Proof.
  intros Hf Httl. unfold setIdempotencyKey. cbn [bind call].
  rewrite exec_Op, handle_setex by done. reflexivity.
Qed.

(** X10.  What [setIdempotencyKey(key, R)] stores, [getIdempotencyKey(key)]
    reads back, the empty string included, and [checkIdempotencyKey(key)]
    then answers [true]; unlike [confirmReservation], [setIdempotencyKey]
    leaves the lock record in place. *)
Theorem set_then_get cfg e w key R :
  fault_of e (seq w) = false →
  fault_of e (S (seq w)) = false →
  0 < ttlSeconds (new_RedisService cfg) →
  let this := new_RedisService cfg in
  result (exec e w (setIdempotencyKey this key R;; getIdempotencyKey key))
    = inr (Some R) ∧
  result (exec e w (setIdempotencyKey this key R;; checkIdempotencyKey key))
    = inr true ∧
  db (final (exec e w (setIdempotencyKey this key R))) !! lockKey key
    = db w !! lockKey key.
Proof.
  intros Hf Hf2 Httl this. subst this.
  rewrite !exec_bind, !exec_setIdempotencyKey by done.
  cbv zeta. cbn [result final].
  assert (Hl : live (next_seq (with_db w
            (<[idempotencyKey key :=
                 Entry R (Some (clock w + ttlSeconds (new_RedisService cfg) * 1000))]>
               (db w)))) (idempotencyKey key) = Some R).
  { rewrite live_next_seq. apply live_insert_eq. lia. }
  split_and!.
  - unfold getIdempotencyKey, call. rewrite exec_Op, handle_get by done.
    exec_redex. cbn [exec result]. by rewrite Hl.
  - unfold checkIdempotencyKey. cbn [bind call]. rewrite exec_Op.
    unfold handle. cbn [is_redis andb seq next_seq with_db]. rewrite Hf2.
    exec_redex. cbn [exec result]. unfold store_exists. by rewrite Hl.
  - cbn [db next_seq with_db]. apply lookup_insert_ne. intros H.
    symmetry in H. by apply keys_distinct in H.
Qed.

(** X11.  [checkIdempotencyKey] and [getIdempotencyKey] never change the
    keyspace, and on the same store they agree: the one answers [true] exactly
    when the other returns a value (the empty string counts as a value). *)
Theorem readers_agree e w key :
  db (final (exec e w (checkIdempotencyKey key))) = db w ∧
  db (final (exec e w (getIdempotencyKey key))) = db w ∧
  (fault_of e (seq w) = false →
   result (exec e w (getIdempotencyKey key)) = inr (live w (idempotencyKey key)) ∧
   result (exec e w (checkIdempotencyKey key))
     = inr (bool_decide (is_Some (live w (idempotencyKey key))))).
Proof.
  split_and!.
  - apply exec_read_only. unfold checkIdempotencyKey. cbn. done.
  - apply exec_read_only. unfold getIdempotencyKey. cbn. done.
  - intros Hf. split.
    + unfold getIdempotencyKey, call. by rewrite exec_Op, handle_get by done.
    + unfold checkIdempotencyKey. cbn [bind call]. rewrite exec_Op.
      unfold handle. cbn [is_redis andb]. rewrite Hf. exec_redex.
      cbn [exec result]. unfold store_exists.
      by destruct (live w (idempotencyKey key)).
Qed.

(** ** Isolation between idempotency keys *)

Lemma record_key_other key key' :
  key' ≠ key →
  ¬ record_key key (idempotencyKey key') ∧ ¬ record_key key (lockKey key').
Proof.
  intros Hne. unfold record_key. split; intros [H | H].
  - by apply idempotencyKey_inj in H.
  - symmetry in H. by apply lockKey_not_idempotencyKey in H.
  - by apply lockKey_not_idempotencyKey in H.
  - by apply lockKey_inj in H.
Qed.

(** X12.  [confirmReservation], [rollbackLock] and [setIdempotencyKey] on one
    idempotency key leave the completion record and the lock record of every
    other idempotency key as they were, whichever call is rejected. *)
Theorem other_keys_untouched cfg e w key key' R :
  key' ≠ key →
  let this := new_RedisService cfg in
  same_records key' w (final (exec e w (confirmReservation this key R))) ∧
  same_records key' w (final (exec e w (rollbackLock key))) ∧
  same_records key' w (final (exec e w (setIdempotencyKey this key R))).
Proof.
  intros Hne this. destruct (record_key_other key key' Hne) as [Hik Hlk].
  assert (Hframe : ∀ A (p : prog A),
            writes_within (record_key key) p →
            same_records key' w (final (exec e w p))).
  { intros A p Hp. split; by apply (exec_frame e p (record_key key)). }
  unfold record_key in *.
  split_and!; apply Hframe; cbn; tauto.
Qed.

(** ** Lock tokens *)

Lemma pretty_N_go_dashless x : ∀ s, dashless s → dashless (pretty_N_go x s).
Proof.
  induction (N.lt_wf_0 x) as [x _ IH]; intros s Hs.
  assert (x = 0 ∨ 0 < x)%N as [-> | Hx] by lia.
  - by rewrite pretty_N_go_0.
  - rewrite pretty_N_go_step by done. apply IH.
    { by apply N.div_lt. }
    split; [|done]. unfold pretty_N_char. by repeat case_match.
Qed.

Lemma number_to_string_dashless n : 0 ≤ n → dashless (JS.number_to_string n).
Proof.
  intros Hn. unfold JS.number_to_string, pretty, pretty_Z.
  destruct n as [| p | p]; [cbn; by split | | lia].
  unfold pretty, pretty_positive, pretty, pretty_N.
  case_decide; [done|]. by apply pretty_N_go_dashless.
Qed.

Lemma split_at_dash u v s1 s2 :
  dashless u → dashless v →
  u +:+ "-" +:+ s1 = v +:+ "-" +:+ s2 → u = v ∧ s1 = s2.
Proof.
  revert v. induction u as [| c u IH]; intros [| d v] Hu Hv H; cbn in *.
  - by simplify_eq.
  - simplify_eq. by destruct Hv.
  - simplify_eq. by destruct Hu.
  - injection H as -> H. destruct Hu as [_ Hu], Hv as [_ Hv].
    destruct (IH v Hu Hv H) as [-> ->]. done.
Qed.

(** X13.  Two lock tokens are equal exactly when they were made in the same
    millisecond from random strings that agree from their eighth character
    on: the time is always told apart, the first seven characters of
    [Math.random().toString(36)] never are. *)
Theorem newLockValue_eq now1 now2 random1 random2 :
  0 ≤ now1 → 0 ≤ now2 →
  newLockValue now1 random1 = newLockValue now2 random2 ↔
  now1 = now2 ∧ JS.substring 7 random1 = JS.substring 7 random2.
Proof.
  intros H1 H2. unfold newLockValue. split.
  - intros H. apply split_at_dash in H as [Hn Hs];
      [| by apply number_to_string_dashless..].
    split; [|done]. by apply (inj pretty) in Hn.
  - by intros [-> ->].
Qed.

(** ** A TTL that is not positive *)

(** X14.  A service whose [ttlSeconds] is zero or negative never records a
    completion: every [confirmReservation] and every [setIdempotencyKey] is
    refused by the store at its SETEX, the rejection reaches the caller,
    nothing is written, and [confirmReservation] does not go on to delete the
    lock. *)
Theorem nonpositive_ttl_refuses this e w key R :
  fault_of e (seq w) = false →
  ttlSeconds this ≤ 0 →
  let refused (o : outcome unit) :=
    (∃ msg, result o = inl (ReplyError msg)) ∧
    (∃ rejection, trace o =
       [Ev (redis_setex (idempotencyKey key) (ttlSeconds this) R)
           (inl rejection)]) ∧
    db (final o) = db w in
  refused (exec e w (confirmReservation this key R)) ∧
  refused (exec e w (setIdempotencyKey this key R)).
Proof.
  intros Hf Hneg refused. subst refused.
  unfold confirmReservation, setIdempotencyKey. cbn [bind call].
  rewrite !exec_Op. unfold handle. cbn [is_redis andb]. rewrite Hf.
  unfold store_setex. destruct (Z.leb_spec (ttlSeconds this) 0); [|lia].
  exec_redex. split; (split_and!; eauto).
Qed.

(** ** The handler of [create_reservation] *)

(** X15.  When [channel.ack] does not throw, [createReservation] calls
    [create], then acknowledges the message exactly once, whether [create]
    resolved or threw, and ends as [create] did: with its value or with what
    it threw. *)
Theorem createReservation_acks_once {Dto Reservation Msg Exn : Type}
    (w : @Controller.services Dto Reservation Exn) (data : Dto) (msg : Msg) :
  Controller.ack_of w 0%nat = None →
  Controller.run w 0 (Controller.createReservation data msg) =
  ([Controller.Create data; Controller.Ack msg], Controller.create_of w data).
Proof.
  intros Hack. unfold Controller.createReservation, Controller.perform.
  cbn [Controller.then_ Controller.try_catch Controller.run].
  destruct (Controller.create_of w data) as [x | r];
    cbn [Controller.then_ Controller.try_catch Controller.run];
    by rewrite Hack.
Qed.

(** X16.  When the first [channel.ack] throws: after a [create] that
    resolved, the handler acknowledges a second time and the caller gets an
    error (of the second acknowledgement if it throws too, else of the first)
    instead of the reservation; after a [create] that threw, there is that one
    acknowledgement and its error replaces the one of [create]. *)
Theorem createReservation_ack_throws {Dto Reservation Msg Exn : Type}
    (w : @Controller.services Dto Reservation Exn) (data : Dto) (msg : Msg)
    (x : Exn) :
  Controller.ack_of w 0%nat = Some x →
  Controller.run w 0 (Controller.createReservation data msg) =
  match Controller.create_of w data with
  | inr _ =>
      ([Controller.Create data; Controller.Ack msg; Controller.Ack msg],
       inl (default x (Controller.ack_of w 1%nat)))
  | inl _ => ([Controller.Create data; Controller.Ack msg], inl x)
  end.
Proof.
  intros Hack. unfold Controller.createReservation, Controller.perform.
  cbn [Controller.then_ Controller.try_catch Controller.run].
  destruct (Controller.create_of w data) as [x0 | r];
    cbn [Controller.then_ Controller.try_catch Controller.run];
    rewrite Hack; cbn [Controller.then_ Controller.try_catch Controller.run];
    [done|].
  by destruct (Controller.ack_of w 1%nat).
Qed.

(** ** The JWT strategy *)

(** X17.  The constructor of [JwtStrategy] throws "JWT_SECRET is missing"
    exactly when the secret is unset or the empty string; otherwise the
    strategy verifies tokens with that very secret and does not ignore their
    expiry. *)
Theorem JwtStrategy_new_spec secret :
  (JwtStrategy.new secret = inl "JWT_SECRET is missing" ↔
   secret = None ∨ secret = Some "") ∧
  (∀ s, secret = Some s → s ≠ "" →
        JwtStrategy.new secret =
        inr {| JwtStrategy.ignoreExpiration := false;
               JwtStrategy.secretOrKey := s |}).
Proof.
  unfold JwtStrategy.new. split.
  - destruct secret as [s|]; cbn; [|split; by eauto].
    destruct (String.eqb_spec s "") as [-> | Hs]; cbn.
    + split; by eauto.
    + split; [discriminate|]. intros [? | [= ->]]; done.
  - intros s -> Hs. by rewrite (truthy_Some s Hs).
Qed.

(** X18.  [validate] gives the user the subject of the token as [userId],
    its email, and no role that the token does not carry: the roles are those
    of the payload, and none when the payload has no [roles]. *)
Theorem validate_roles payload role :
  ValidatedUser.userId (JwtStrategy.validate payload) = JwtPayload.sub payload ∧
  ValidatedUser.email (JwtStrategy.validate payload) = JwtPayload.email payload ∧
  (role ∈ ValidatedUser.roles (JwtStrategy.validate payload) ↔
   ∃ l, JwtPayload.roles payload = Some l ∧ role ∈ l).
Proof.
  split_and!; [done | done |]. cbn.
  destruct (JwtPayload.roles payload) as [l|]; cbn.
  - split; [by eauto | by intros (? & [= <-] & ?)].
  - split; [by intros ?%elem_of_nil | by intros (? & [=] & _)].
Qed.

(** ** Two callers: what they leave alone *)

Lemma thread_step_frame {A} e w (t : thread A) (P : string → Prop) k :
  thread_writes_within P t → ¬ P k →
  db (thread_step e w t).1 !! k = db w !! k ∧
  thread_writes_within P (thread_step e w t).2.
Proof.
  intros Ht Hk. destruct t as [[a | c kont] | until p | err];
    cbn [thread_step thread_writes_within] in *; try done.
  - destruct Ht as [Hc Hrest].
    pose proof (handle_frame e w c P k Hc Hk) as Hh.
    destruct c; try (destruct (handle e w _) as [[err | x] w'];
                     cbn [fst snd thread_writes_within] in *; by auto).
  - by destruct (Z.leb _ _).
Qed.

Lemma run_schedule_frame {A} e (P : string → Prop) k sched :
  ¬ P k →
  ∀ c : config A,
    thread_writes_within P (caller1 c) →
    thread_writes_within P (caller2 c) →
    db (store (run_schedule e c sched)) !! k = db (store c) !! k.
Proof.
  intros Hk. unfold run_schedule.
  induction sched as [| a sched IH]; intros c H1 H2; cbn [foldl]; [done|].
  destruct a as [| | ms]; cbn [act].
  - destruct (thread_step_frame e (store c) (caller1 c) P k H1 Hk) as [Hdb Ht].
    destruct (thread_step e (store c) (caller1 c)) as [w' t'].
    rewrite IH by done. done.
  - destruct (thread_step_frame e (store c) (caller2 c) P k H2 Hk) as [Hdb Ht].
    destruct (thread_step e (store c) (caller2 c)) as [w' t'].
    rewrite IH by done. done.
  - rewrite IH by done. done.
Qed.

(** X19.  Two callers of [checkAndLock(key)], interleaved in any way with
    time passing and any call rejected, leave every key other than
    [lock:<key>] as it was at every point of the race: no completion record
    is created, changed or deleted by the race. *)
Theorem race_frame cfg e w key sched :
  let c := run_schedule e (race_start (new_RedisService cfg) key w) sched in
  (∀ k, k ≠ lockKey key → db (store c) !! k = db w !! k) ∧
  (∀ key', db (store c) !! idempotencyKey key' = db w !! idempotencyKey key').
Proof.
  intros c.
  assert (Hframe : ∀ k, k ≠ lockKey key → db (store c) !! k = db w !! k).
  { intros k Hk. subst c.
    apply (run_schedule_frame e (fun k => k = lockKey key)); [done | |];
      apply checkAndLock_writes_within. }
  split; [done|]. intros key'. apply Hframe. intros H. symmetry in H.
  by apply lockKey_not_idempotencyKey in H.
Qed.

(** ** Sample runs of the further properties *)

(** X2, witness. *)
Lemma checkAndLock_calls_bounded_witness :
  (length (trace (exec sample_env locked_store
                    (checkAndLock sample_service "order-43"))) ≤ 6)%nat.
Proof.
  apply (checkAndLock_calls_bounded None "order-43" _
           (result (exec sample_env locked_store
                      (checkAndLock sample_service "order-43")))).
  apply exec_runs.
Defined.

(** X3, witness: on the empty store the lock is acquired. *)
Lemma checkAndLock_alone_witness :
  ∃ r, result (exec sample_env empty_store
                 (checkAndLock sample_service "order-42")) = inr r ∧
       r = LockAcquired.
Proof.
  destruct (checkAndLock_alone None sample_env empty_store "order-42"
              reliable_sample_env) as (r & Hr & _ & _ & Hacq & _).
  exists r. split; [exact Hr|].
  apply Hacq. split; vm_compute; reflexivity.
Defined.

(** X4, witness: the fifth call, the double check, is rejected. *)
Lemma checkAndLock_double_check_rejected_witness :
  result (exec (fault_at 4) empty_store (checkAndLock sample_service "order-42"))
  = inl StoreUnavailable ∧
  live (advance (final (exec (fault_at 4) empty_store
                          (checkAndLock sample_service "order-42"))) 4999)
       (lockKey "order-42") = Some "1700000000000-82mvyr".
Proof.
  destruct (checkAndLock_double_check_rejected None (fault_at 4) empty_store
              "order-42") as (Hr & Hin & _);
    [reflexivity | reflexivity | reflexivity
    | vm_compute; reflexivity | vm_compute; reflexivity |].
  split; [exact Hr|]. apply (Hin 4999). lia.
Defined.

(** X5, witness: the second call, the DEL, is rejected. *)
Lemma confirmReservation_del_rejected_witness :
  result (exec (fault_at 1) locked_store
            (confirmReservation sample_service "order-43" "res-101"))
  = inl StoreUnavailable ∧
  db (final (exec (fault_at 1) locked_store
               (confirmReservation sample_service "order-43" "res-101")))
    !! lockKey "order-43"
  = db locked_store !! lockKey "order-43".
Proof.
  destruct (confirmReservation_del_rejected None (fault_at 1) locked_store
              "order-43" "res-101") as (Hr & _ & Hlk);
    [reflexivity | vm_compute; reflexivity | reflexivity |].
  split; [exact Hr | exact Hlk].
Defined.

(** X6, witness: one second after the confirmation. *)
Lemma confirmed_then_duplicate_witness :
  result (exec sample_env (advance completed_store 1000)
            (checkAndLock sample_service "order-42"))
  = inr (Duplicate "res-100").
Proof.
  destruct (confirmed_then_duplicate None sample_env empty_store "order-42"
              "res-100" (advance completed_store 1000)) as [Hin _];
    [reflexivity | vm_compute; reflexivity | discriminate | reflexivity
    | vm_compute; discriminate |].
  exact (f_equal result (Hin ltac:(vm_compute; reflexivity) eq_refl)).
Defined.

(** X7, witness: the lock of [order-43] is held by someone else. *)
Lemma rollback_then_acquire_witness :
  result (exec sample_env locked_store
            (rollbackLock "order-43";; checkAndLock sample_service "order-43"))
  = inr LockAcquired.
Proof.
  destruct (rollback_then_acquire None sample_env locked_store "order-43")
    as (Hr & _); [exact reliable_sample_env | vm_compute; reflexivity |].
  exact Hr.
Defined.

(** X8, witness: a caller that starts 5000 ms after the lock was taken. *)
Lemma lock_blocks_for_ttl_witness :
  result (exec sample_env
            (advance (final (exec sample_env empty_store
                               (checkAndLock sample_service "order-42"))) 5000)
            (checkAndLock sample_service "order-42"))
  = inr LockAcquired.
Proof.
  destruct (lock_blocks_for_ttl None sample_env empty_store "order-42"
              (advance (final (exec sample_env empty_store
                                 (checkAndLock sample_service "order-42"))) 5000))
    as [_ Hout];
    [exact reliable_sample_env | vm_compute; reflexivity | vm_compute; reflexivity
    | reflexivity | vm_compute; discriminate |].
  apply Hout. vm_compute. discriminate.
Defined.

(** X9, witness. *)
Lemma confirm_twice_last_wins_witness :
  result (exec sample_env empty_store
            (confirmReservation sample_service "order-42" "res-100";;
             confirmReservation sample_service "order-42" "res-200";;
             checkAndLock sample_service "order-42"))
  = inr (Duplicate "res-200").
Proof.
  apply (confirm_twice_last_wins None sample_env empty_store "order-42"
           "res-100" "res-200").
  - exact reliable_sample_env.
  - vm_compute. reflexivity.
  - discriminate.
Defined.

(** X10, witness: the empty string is read back. *)
Lemma set_then_get_witness :
  result (exec sample_env empty_store
            (setIdempotencyKey sample_service "order-44" "";;
             getIdempotencyKey "order-44"))
  = inr (Some "").
Proof.
  destruct (set_then_get None sample_env empty_store "order-44" "")
    as (Hget & _); [reflexivity | reflexivity | vm_compute; reflexivity |].
  exact Hget.
Defined.

(** X12, witness: confirming [order-42] leaves the lock of [order-43]. *)
Lemma other_keys_untouched_witness :
  same_records "order-43" locked_store
    (final (exec sample_env locked_store
              (confirmReservation sample_service "order-42" "res-100"))).
Proof.
  destruct (other_keys_untouched None sample_env locked_store "order-42"
              "order-43" "res-100") as (Hc & _); [discriminate|].
  exact Hc.
Defined.

(** X13, witness: the same millisecond, two random strings that differ only
    in their first seven characters. *)
Lemma newLockValue_eq_witness :
  newLockValue 1700000000000 "0.4fzyo82mvyr"
  = newLockValue 1700000000000 "0.1abcd82mvyr".
Proof.
  apply (newLockValue_eq 1700000000000 1700000000000
           "0.4fzyo82mvyr" "0.1abcd82mvyr"); [lia | lia |].
  split; reflexivity.
Defined.

(** X14, witness: [ttlSeconds] is zero. *)
Lemma nonpositive_ttl_refuses_witness :
  db (final (exec sample_env locked_store
               (confirmReservation {| ttlSeconds := 0; lockTtlMs := 5000 |}
                  "order-43" "res-101")))
  = db locked_store ∧
  live (final (exec sample_env locked_store
                 (confirmReservation {| ttlSeconds := 0; lockTtlMs := 5000 |}
                    "order-43" "res-101"))) (lockKey "order-43")
  = Some "tokenB".
Proof.
  destruct (nonpositive_ttl_refuses {| ttlSeconds := 0; lockTtlMs := 5000 |}
              sample_env locked_store "order-43" "res-101")
    as [(_ & _ & Hdb) _]; [reflexivity | vm_compute; discriminate |].
  split; [exact Hdb | vm_compute; reflexivity].
Defined.

(** X15, witness. *)
Lemma createReservation_acks_once_witness :
  Controller.run sample_services 0
    (Controller.createReservation "table-7" "msg-1")
  = ([Controller.Create "table-7"; Controller.Ack "msg-1"], inr "res-table-7").
Proof.
  apply (createReservation_acks_once sample_services "table-7" "msg-1").
  reflexivity.
Defined.

(** X16, witness: the reservation is created, the caller gets the error. *)
Lemma createReservation_ack_throws_witness :
  Controller.run closed_channel 0
    (Controller.createReservation "table-7" "msg-1")
  = ([Controller.Create "table-7"; Controller.Ack "msg-1";
      Controller.Ack "msg-1"], inl "channel closed").
Proof.
  apply (createReservation_ack_throws closed_channel "table-7" "msg-1"
           "channel closed").
  reflexivity.
Defined.
